(** * Brute-force oracles of the graph-partition and number-partition notebooks

    The development embeds the hand-written Python of
    [optimization/graph_partition.ipynb] (the [brute_force] cell with its
    nested [bitfield]) and the [try]/[except] cell of
    [optimization/partition.ipynb], together with the few numpy and qiskit
    functions these cells call, and proves the properties the specification
    states about them. *)

From Stdlib Require Import ZArith List Lia Bool String Ascii.
From Stdlib Require Import Sorted Permutation.
Import ListNotations.

#[local] Open Scope Z_scope.

(** ** The numpy functions the notebooks call *)

Module Numpy.

(** [bin(num)[2:]] for a positive [num]: most significant digit first. *)
Fixpoint bin (p : positive) : string :=
  match p with
  | xH => "1"
  | xO q => bin q ++ "0"
  | xI q => bin q ++ "1"
  end%string.

(** ['0' * k] *)
Fixpoint zeros (k : nat) : string :=
  match k with
  | O => EmptyString
  | S k' => String "0" (zeros k')
  end.

(** [str.zfill] on a string without a sign. *)
Definition zfill (s : string) (outwidth : nat) : string :=
  (zeros (outwidth - String.length s) ++ s)%string.

(** [np.binary_repr(num, width)] on [num >= 0], the only case [range]
    feeds it.  Zero is printed as ['0' * (width or 1)], a positive number
    as its binary digits filled with zeros up to
    [max(binwidth, width)] characters. *)
Definition binary_repr (num : N) (width : nat) : string :=
  match num with
  | N0 => zeros (if Nat.eqb width 0 then 1%nat else width)
  | Npos p =>
      let binary := bin p in
      let binwidth := String.length binary in
      let outwidth := Nat.max binwidth width in
      zfill binary outwidth
  end.

(** [int(digit)] on a one-character string holding a decimal digit. *)
Definition int (digit : ascii) : Z := Z.of_N (N_of_ascii digit) - 48.

(** [np.count_nonzero] on a list of integers. *)
Definition count_nonzero (l : list Z) : Z :=
  Z.of_nat (List.length (filter (fun v => negb (v =? 0)) l)).

(** [np.sum] on a vector and on a matrix. *)
Definition sum (l : list Z) : Z := fold_right Z.add 0 l.

Definition sum2 (m : list (list Z)) : Z := sum (map sum m).

(** [np.outer(a, b)] *)
Definition outer (a b : list Z) : list (list Z) :=
  map (fun ai => map (fun bj => ai * bj) b) a.

(** [np.where(w != 0, 1, 0)] *)
Definition where_nonzero (w : list (list Z)) : list (list Z) :=
  map (map (fun v => if v =? 0 then 0 else 1)) w.

(** Entry-wise combination of two arrays of one shape. *)
Fixpoint zip_with {A B C : Type} (f : A -> B -> C)
  (a : list A) (b : list B) : list C :=
  match a, b with
  | x :: a', y :: b' => f x y :: zip_with f a' b'
  | _, _ => []
  end.

(** [a * b] on two matrices of one shape. *)
Definition multiply (a b : list (list Z)) : list (list Z) :=
  zip_with (zip_with Z.mul) a b.

(** [number_list[x == b]]: the entries of [number_list] at the positions
    where the mask [x] holds [b]. *)
Definition select (b : Z) (x number_list : list Z) : list Z :=
  map snd (filter (fun p => fst p =? b) (combine x number_list)).

(** [range(n)] *)
Definition range (n : nat) : list N := map N.of_nat (seq 0 n).

End Numpy.

(** ** [qiskit.optimization.applications.ising.graph_partition] *)

Module graph_partition.

(** [objective_value(x, w)] is imported from the qiskit package; the
    notebook documents it ("the objective_value below is defined as the
    number of crossing edges") and records what it returns on the sample
    graph.  The model follows the library's three lines:
    [X = np.outer(x, 1 - x)], [w_01 = np.where(w != 0, 1, 0)],
    [np.sum(w_01 * X)]. *)
Definition objective_value (x : list Z) (w : list (list Z)) : Z :=
  let X := Numpy.outer x (map (fun xi => 1 - xi) x) in
  let w_01 := Numpy.where_nonzero w in
  Numpy.sum2 (Numpy.multiply w_01 X).

End graph_partition.

(** ** The [brute_force] cell of graph_partition.ipynb *)

(** [minimal_v] starts at [np.inf] and then holds objective values. *)
Inductive value : Type :=
| Finite (v : Z)
| Inf.

(** [cur_v < minimal_v] *)
Definition value_lt (cur_v : Z) (minimal_v : value) : bool :=
  match minimal_v with
  | Inf => true
  | Finite m => cur_v <? m
  end.

(** [[int(digit) for digit in result]] *)
Definition digits (result : string) : list Z :=
  map Numpy.int (list_ascii_of_string result).

Definition bitfield (n : N) (L : nat) : list Z :=
  let result := Numpy.binary_repr n L in
  digits result.

(** The state of the loop: the variable [minimal_v], and, as a ghost
    component, the arguments [objective_value] has been called with so
    far, in call order. *)
Record loop_state : Type := {
  minimal_v : value;
  evaluated : list (list Z)
}.

(** Before the loop: [minimal_v = np.inf], no call made. *)
Definition initial_state : loop_state :=
  {| minimal_v := Inf; evaluated := [] |}.

Section BruteForce.

(** The objective, a function of the candidate; the notebook calls
    [graph_partition.objective_value(np.array(cur), w)]. *)
Variable objective : list Z -> Z.
Variable L : nat.

(** One iteration of [for i in range(max)]. *)
Definition brute_force_body (st : loop_state) (i : N) : loop_state :=
  let cur := bitfield i L in
  let how_many_nonzero := Numpy.count_nonzero cur in
  if negb (how_many_nonzero * 2 =? Z.of_nat L) then st
  else
    let cur_v := objective cur in
    {| minimal_v :=
         if value_lt cur_v (minimal_v st) then Finite cur_v
         else minimal_v st;
       evaluated := evaluated st ++ [cur] |}.

Definition brute_force_loop : loop_state :=
  let max := (2 ^ L)%nat in
  fold_left brute_force_body (Numpy.range max) initial_state.

End BruteForce.

(** [brute_force()], with the globals [num_nodes] and [w] it reads made
    arguments. *)
Definition brute_force (num_nodes : nat) (w : list (list Z)) : value :=
  minimal_v
    (brute_force_loop (fun cur => graph_partition.objective_value cur w)
       num_nodes).

(** The graph printed by the first cell. *)
Definition sample_w : list (list Z) :=
  [[0; 4; 5; 3]; [4; 0; -5; 7]; [5; -5; 0; 0]; [3; 7; 0; 0]].

(** ** [qiskit.optimization.applications.ising.partition] *)

Module partition.

(** Modelled from the spec: [partition.partition_value(x, number_list)]
    is imported from the qiskit package and is not part of the notebook.
    Section 4.1 gives it as the square of (sum of numbers assigned to 0)
    minus (sum of numbers assigned to 1); the two sums are taken with
    the masks [x == 0] and [x == 1].  Numbers are unbounded integers. *)
Definition partition_value (x number_list : list Z) : Z :=
  let diff :=
    Numpy.sum (Numpy.select 0 x number_list)
    - Numpy.sum (Numpy.select 1 x number_list) in
  diff * diff.

End partition.

(** The number list printed by the second cell of partition.ipynb (the
    content of [sample.partition]). *)
Definition sample_number_list : list Z := [1; 3; 4; 7; 10; 13; 15; 16].

(** ** Vocabulary of the specification *)

Definition is_bit (b : Z) : Prop := b = 0 \/ b = 1.

(** A binary assignment of size [n]. *)
Definition assignment (n : nat) (a : list Z) : Prop :=
  List.length a = n /\ Forall is_bit a.

(** Flipping every bit: [y_j = 1 - x_j]. *)
Definition complement (a : list Z) : list Z := map (fun b => 1 - b) a.

(** Number of 1-bits. *)
Definition ones (a : list Z) : nat := count_occ Z.eq_dec a 1.

(** Exactly [n/2] ones, decided without division. *)
Definition balancedb (n : nat) (a : list Z) : bool := Nat.eqb (2 * ones a) n.

Definition balanced (n : nat) (a : list Z) : Prop := (2 * ones a = n)%nat.

(** The integer a bit string denotes, most significant bit first. *)
Definition binary_value (a : list Z) : Z :=
  fold_left (fun acc b => 2 * acc + b) a 0.

(** All binary strings of length [n], in increasing integer order. *)
Fixpoint all_bits (n : nat) : list (list Z) :=
  match n with
  | O => [[]]
  | S k => map (cons 0) (all_bits k) ++ map (cons 1) (all_bits k)
  end.

(** The least element of a list of objective values; [Inf] when there is
    none. *)
Fixpoint minimum (vs : list Z) : value :=
  match vs with
  | [] => Inf
  | v :: vs' =>
      match minimum vs' with
      | Inf => Finite v
      | Finite m => Finite (Z.min v m)
      end
  end.

(** The update of the tracked minimum by one more value. *)
Definition track (m : value) (v : Z) : value :=
  if value_lt v m then Finite v else m.

(** [m <= v] for a tracked minimum [m]. *)
Definition value_le (m : value) (v : Z) : Prop :=
  match m with
  | Inf => False
  | Finite z => z <= v
  end.

(** Modelled from the spec: the Exact Solver of section 4.2 with its
    optional balance constraint flag.  The notebooks only contain the
    balanced instance, [brute_force]; the solver without the constraint is
    not in the repository.  It enumerates the binary strings of length [n]
    in increasing order, with the flag set keeps the balanced ones, and
    returns the minimum of the objective over the candidates kept. *)
Definition exact_solver (balance : bool) (objective : list Z -> Z)
  (n : nat) : value :=
  let candidates :=
    if balance then filter (balancedb n) (all_bits n) else all_bits n in
  minimum (map objective candidates).

(** Modelled from the spec: the assignment the Exact Solver of section 4.2
    tracks along with the minimum, ties broken by first-encountered in
    enumeration order; [None] when no candidate is kept. *)
Definition keep_first (objective : list Z -> Z)
  (best : option (list Z)) (a : list Z) : option (list Z) :=
  match best with
  | None => Some a
  | Some b => if objective a <? objective b then Some a else Some b
  end.

(** Modelled from the spec: the Exact Solver of section 4.2 returning the
    assignment it tracks rather than the value. *)
Definition exact_solver_assignment (balance : bool)
  (objective : list Z -> Z) (n : nat) : option (list Z) :=
  let candidates :=
    if balance then filter (balancedb n) (all_bits n) else all_bits n in
  fold_left (keep_first objective) candidates None.

(** The candidates [brute_force] builds, in loop order. *)
Definition candidates (L : nat) : list (list Z) :=
  map (fun i => bitfield i L) (Numpy.range (2 ^ L)).

(** Sum of [f 0 .. f (n-1)]. *)
Fixpoint isum (n : nat) (f : nat -> Z) : Z :=
  match n with
  | O => 0
  | S k => isum k f + f k
  end.

(** Entry [(i, j)] of a matrix and entry [i] of a vector. *)
Definition entry (w : list (list Z)) (i j : nat) : Z := nth j (nth i w []) 0.

Definition at_ (a : list Z) (i : nat) : Z := nth i a 0.

(** An [n] by [n] matrix. *)
Definition square (n : nat) (w : list (list Z)) : Prop :=
  List.length w = n /\ Forall (fun row => List.length row = n) w.

Definition symmetric (n : nat) (w : list (list Z)) : Prop :=
  forall i j, (i < n)%nat -> (j < n)%nat -> entry w i j = entry w j i.

(** Modelled from the spec: the graph-partition objective in the words of
    section 4.1, the sum over all edges (i,j) of [w[i][j]] where
    [assignment[i] <> assignment[j]]; every edge is one unordered pair
    [i < j]. *)
Definition crossing_weight (a : list Z) (w : list (list Z)) : Z :=
  let n := List.length a in
  isum n (fun i =>
    isum n (fun j =>
      if Nat.ltb i j && negb (at_ a i =? at_ a j) then entry w i j else 0)).

(** The sum of the numbers assigned bit [b]: position [i] contributes
    [number_list[i]] when the assignment holds [b] there. *)
Definition subset_sum (b : Z) (a number_list : list Z) : Z :=
  isum (List.length number_list) (fun i =>
    match nth_error a i with
    | Some v => if v =? b then at_ number_list i else 0
    | None => 0
    end).

(** ** The solver cells of partition.ipynb *)

Module Cells.

(** The exceptions a cell of the notebook can meet.  The first four are
    subclasses of [Exception]; [KeyboardInterrupt] derives from
    [BaseException] only. *)
Inductive exception : Type :=
| ImportError (msg : string)
| NameError (msg : string)
| KeyError (msg : string)
| AquaError (msg : string)
| KeyboardInterrupt.

(** [isinstance(ex, Exception)] *)
Definition is_Exception (ex : exception) : bool :=
  match ex with
  | KeyboardInterrupt => false
  | _ => true
  end.

(** [str(ex)] *)
Definition str (ex : exception) : string :=
  match ex with
  | ImportError msg | NameError msg | KeyError msg | AquaError msg => msg
  | KeyboardInterrupt => EmptyString
  end.

Inductive outcome (A : Type) : Type :=
| Returned (a : A)
| Raised (ex : exception).

Arguments Returned {A} a.
Arguments Raised {A} ex.

(** A piece of Python: the lines it prints and how it ends. *)
Definition py (A : Type) : Type := (list string * outcome A)%type.

Definition ret {A : Type} (a : A) : py A := ([], Returned a).

Definition raise {A : Type} (ex : exception) : py A := ([], Raised ex).

Definition print (line : string) : py unit := ([line], Returned tt).

Definition bind {A B : Type} (c : py A) (k : A -> py B) : py B :=
  match c with
  | (out, Returned a) => let (out', r) := k a in (out ++ out', r)
  | (out, Raised ex) => (out, Raised ex)
  end.

(** [try: body except Exception as ex: handler] *)
Definition try_except_Exception (body : py unit)
  (handler : exception -> py unit) : py unit :=
  match body with
  | (out, Returned tt) => (out, Returned tt)
  | (out, Raised ex) =>
      if is_Exception ex
      then let (out', r) := handler ex in (out ++ out', r)
      else (out, Raised ex)
  end.

(** Running cells in order, stopping at the first one that raises. *)
Fixpoint run_all (cells : list (py unit)) : py unit :=
  match cells with
  | [] => ret tt
  | c :: rest => bind c (fun _ => run_all rest)
  end.

Fixpoint print_all (lines : list string) : py unit :=
  match lines with
  | [] => ret tt
  | l :: rest => bind (print l) (fun _ => print_all rest)
  end.

Section Solvers.

(** What the external solvers do is outside the notebook: the import
    of [ClassicalCPLEX] and the call [ClassicalCPLEX(qubitOp,
    display=0).run()] followed by the formatting of its result either
    raise or give the five lines printed; the eigensolver and VQE
    cells print their lines. *)
Variable import_ClassicalCPLEX : outcome unit.
Variable run_ClassicalCPLEX : outcome (list string).
Variable eigensolver_lines : list string.
Variable vqe_lines : list string.

(** Cell 6 *)
Definition cplex_cell : py unit :=
  try_except_Exception
    (bind ([], import_ClassicalCPLEX) (fun _ =>
     bind ([], run_ClassicalCPLEX) (fun lines =>
     print_all lines)))
    (fun ex => print (str ex)).

(** Cells 5, 6 and 7 *)
Definition solver_cells : py unit :=
  run_all [print_all eigensolver_lines; cplex_cell; print_all vqe_lines].

End Solvers.

End Cells.


(** ** The solution vector of the CPLEX cell *)

(** A Python [dict] with integer keys and values: its items in insertion
    order.  The keys of a [dict] are distinct. *)
Definition dict : Type := list (Z * Z).

(** [d.keys()] *)
Definition keys (d : dict) : list Z := map fst d.

(** [d[i]]; [None] stands for [KeyError]. *)
Fixpoint getitem (d : dict) (i : Z) : option Z :=
  match d with
  | [] => None
  | (k, v) :: d' => if k =? i then Some v else getitem d' i
  end.

(** [sorted] on a list of integers. *)
Fixpoint insert_sorted (k : Z) (l : list Z) : list Z :=
  match l with
  | [] => [k]
  | h :: t => if k <=? h then k :: l else h :: insert_sorted k t
  end.

Definition sorted (l : list Z) : list Z := fold_right insert_sorted [] l.

(** [[f(i) for i in l]] where [f] may raise. *)
Fixpoint comprehension (f : Z -> option Z) (l : list Z) : option (list Z) :=
  match l with
  | [] => Some []
  | i :: l' =>
      match f i with
      | None => None
      | Some v =>
          match comprehension f l' with
          | None => None
          | Some vs => Some (v :: vs)
          end
      end
  end.

(** [x = np.array([x_dict[i] for i in sorted(x_dict.keys())])] *)
Definition x_sol_array (x_dict : dict) : option (list Z) :=
  comprehension (getitem x_dict) (sorted (keys x_dict)).

(** ** Counting and ordering *)

(** The binomial coefficient, by Pascal's rule. *)
Fixpoint choose (n k : nat) : nat :=
  match n, k with
  | _, O => 1
  | O, S _ => 0
  | S n', S k' => choose n' k' + choose n' (S k')
  end.

(** The order on tracked minima, [Inf] on top. *)
Definition value_leq (a b : value) : Prop :=
  match a, b with
  | _, Inf => True
  | Inf, Finite _ => False
  | Finite x, Finite y => x <= y
  end.

(** The loop state after [k] iterations. *)
Definition state_after (objective : list Z -> Z) (L k : nat) : loop_state :=
  fold_left (brute_force_body objective L)
    (firstn k (Numpy.range (2 ^ L))) initial_state.


(** * Properties *)

(** Closes [Forall is_bit l] and [assignment n l] on a literal list. *)
Ltac literal_bits :=
  try (split; [reflexivity|]);
  repeat (apply Forall_cons; [first [now left | now right]|]);
  apply Forall_nil.

(** ** Digits of [np.binary_repr] *)

Section Digits.

Lemma chars_app (s1 s2 : string) :
  list_ascii_of_string (s1 ++ s2)
  = list_ascii_of_string s1 ++ list_ascii_of_string s2.
Proof.
  induction s1 as [|c s1 IH]; simpl; [reflexivity|].
  now rewrite IH.
Qed.

Lemma chars_length (s : string) :
  List.length (list_ascii_of_string s) = String.length s.
Proof.
  induction s as [|c s IH]; simpl; congruence.
Qed.

Lemma digits_app (s1 s2 : string) :
  digits (s1 ++ s2)%string = digits s1 ++ digits s2.
Proof.
  unfold digits.
  now rewrite chars_app, map_app.
Qed.

Lemma digits_length (s : string) : List.length (digits s) = String.length s.
Proof.
  unfold digits.
  now rewrite length_map, chars_length.
Qed.

Lemma digits_zeros (k : nat) : digits (Numpy.zeros k) = repeat 0 k.
Proof.
  unfold digits.
  induction k as [|k IH]; simpl; [reflexivity|].
  now rewrite IH.
Qed.

Lemma fold_binary (l : list Z) (acc : Z) :
  fold_left (fun acc b => 2 * acc + b) l acc
  = acc * 2 ^ Z.of_nat (List.length l) + binary_value l.
Proof.
  unfold binary_value.
  revert acc.
  induction l as [|d l IH]; intros acc.
  - simpl. lia.
  - cbn [fold_left List.length].
    rewrite IH, (IH (2 * 0 + d)).
    rewrite Nat2Z.inj_succ, Z.pow_succ_r by lia.
    ring.
Qed.

Lemma binary_value_cons (d : Z) (l : list Z) :
  binary_value (d :: l) = d * 2 ^ Z.of_nat (List.length l) + binary_value l.
Proof.
  unfold binary_value at 1.
  cbn [fold_left].
  rewrite fold_binary.
  ring.
Qed.

Lemma binary_value_snoc (l : list Z) (d : Z) :
  binary_value (l ++ [d]) = 2 * binary_value l + d.
Proof.
  unfold binary_value.
  now rewrite fold_left_app.
Qed.

Lemma binary_value_app (l1 l2 : list Z) :
  binary_value (l1 ++ l2)
  = binary_value l1 * 2 ^ Z.of_nat (List.length l2) + binary_value l2.
Proof.
  unfold binary_value at 1.
  rewrite fold_left_app.
  apply fold_binary.
Qed.

Lemma binary_value_zeros (k : nat) : binary_value (repeat 0 k) = 0.
Proof.
  induction k as [|k IH]; [reflexivity|].
  cbn [repeat].
  rewrite binary_value_cons, IH.
  lia.
Qed.

Lemma binary_value_bound (l : list Z) :
  Forall is_bit l -> 0 <= binary_value l < 2 ^ Z.of_nat (List.length l).
Proof.
  induction 1 as [|d l Hd _ IH].
  - cbn. lia.
  - rewrite binary_value_cons.
    cbn [List.length].
    rewrite Nat2Z.inj_succ, Z.pow_succ_r by lia.
    destruct Hd; subst d; lia.
Qed.

Lemma is_bit_zeros (k : nat) : Forall is_bit (repeat 0 k).
Proof.
  induction k as [|k IH]; cbn [repeat]; constructor.
  - now left.
  - exact IH.
Qed.

Lemma bin_bits (p : positive) : Forall is_bit (digits (Numpy.bin p)).
Proof.
  induction p as [q IH|q IH|]; cbn [Numpy.bin].
  - rewrite digits_app.
    apply Forall_app; split; [assumption|].
    apply Forall_cons; [now right | apply Forall_nil].
  - rewrite digits_app.
    apply Forall_app; split; [assumption|].
    apply Forall_cons; [now left | apply Forall_nil].
  - apply Forall_cons; [now right | apply Forall_nil].
Qed.

Lemma bin_value (p : positive) :
  binary_value (digits (Numpy.bin p)) = Z.pos p.
Proof.
  induction p as [q IH|q IH|]; cbn [Numpy.bin].
  - rewrite digits_app.
    change (digits "1"%string) with [1].
    rewrite binary_value_snoc, IH. lia.
  - rewrite digits_app.
    change (digits "0"%string) with [0].
    rewrite binary_value_snoc, IH. lia.
  - reflexivity.
Qed.

Lemma string_length_app (s1 s2 : string) :
  String.length (s1 ++ s2) = (String.length s1 + String.length s2)%nat.
Proof.
  induction s1 as [|c s1 IH]; simpl; congruence.
Qed.

(** The leading digit of [bin p] is a one: [2^(len-1) <= p]. *)
Lemma bin_length_lower (p : positive) :
  2 ^ Z.of_nat (String.length (Numpy.bin p)) <= 2 * Z.pos p.
Proof.
  induction p as [q IH|q IH|]; cbn [Numpy.bin].
  - rewrite string_length_app. cbn [String.length].
    rewrite Nat.add_1_r, Nat2Z.inj_succ, Z.pow_succ_r by lia. lia.
  - rewrite string_length_app. cbn [String.length].
    rewrite Nat.add_1_r, Nat2Z.inj_succ, Z.pow_succ_r by lia. lia.
  - cbn. lia.
Qed.

Lemma bin_length_le (p : positive) (L : nat) :
  Z.pos p < 2 ^ Z.of_nat L -> (String.length (Numpy.bin p) <= L)%nat.
Proof.
  intros Hp.
  destruct (Nat.le_gt_cases (String.length (Numpy.bin p)) L) as [H|H];
    [assumption|exfalso].
  pose proof (bin_length_lower p) as Hlow.
  assert (Hpow : 2 ^ Z.of_nat (S L)
                 <= 2 ^ Z.of_nat (String.length (Numpy.bin p)))
    by (apply Z.pow_le_mono_r; lia).
  rewrite Nat2Z.inj_succ, Z.pow_succ_r in Hpow by lia.
  lia.
Qed.

Lemma zeros_length (k : nat) : String.length (Numpy.zeros k) = k.
Proof.
  induction k; simpl; congruence.
Qed.

(** Every digit [bitfield] produces is a bit, whatever its arguments. *)
Lemma bitfield_bits (i : N) (L : nat) : Forall is_bit (bitfield i L).
Proof.
  unfold bitfield, Numpy.binary_repr.
  destruct i as [|p].
  - rewrite digits_zeros. apply is_bit_zeros.
  - cbv zeta. unfold Numpy.zfill.
    rewrite digits_app, digits_zeros.
    apply Forall_app; split; [apply is_bit_zeros | apply bin_bits].
Qed.

(** The digits denote the number printed. *)
Lemma bitfield_value (i : N) (L : nat) : binary_value (bitfield i L) = Z.of_N i.
Proof.
  unfold bitfield, Numpy.binary_repr.
  destruct i as [|p].
  - rewrite digits_zeros. apply binary_value_zeros.
  - cbv zeta. unfold Numpy.zfill.
    rewrite digits_app, digits_zeros, binary_value_app, binary_value_zeros.
    rewrite bin_value. cbn. lia.
Qed.

(** With a width of at least one digit and a number below [2^L], the
    string has exactly [L] digits. *)
Lemma bitfield_length (i : N) (L : nat) :
  (1 <= L)%nat -> Z.of_N i < 2 ^ Z.of_nat L ->
  List.length (bitfield i L) = L.
Proof.
  intros HL Hi.
  unfold bitfield, Numpy.binary_repr.
  destruct i as [|p].
  - rewrite digits_length, zeros_length.
    destruct L; [lia | reflexivity].
  - cbv zeta. unfold Numpy.zfill.
    rewrite digits_length, string_length_app, zeros_length.
    pose proof (bin_length_le p L Hi).
    lia.
Qed.

End Digits.

(** ** The enumeration of binary strings *)

Section Enumeration.

Lemma all_bits_length (n : nat) : List.length (all_bits n) = (2 ^ n)%nat.
Proof.
  induction n as [|n IH]; [reflexivity|].
  cbn [all_bits Nat.pow].
  rewrite length_app, !length_map, IH. lia.
Qed.

Lemma all_bits_assignment (n : nat) : Forall (assignment n) (all_bits n).
Proof.
  induction n as [|n IH]; cbn [all_bits].
  - repeat constructor.
  - apply Forall_app; split; apply Forall_map;
      (eapply Forall_impl; [|exact IH]);
      intros a [Hlen Hbits]; split; cbn [List.length]; try congruence;
      constructor; try assumption; [now left | now right].
Qed.

Lemma seq_offset (k start len : nat) :
  seq (k + start) len = map (Nat.add k) (seq start len).
Proof.
  revert start.
  induction len as [|len IH]; intros start; [reflexivity|].
  cbn [seq map]. f_equal.
  rewrite <- IH. f_equal. lia.
Qed.

Lemma all_bits_values (n : nat) :
  map binary_value (all_bits n) = map Z.of_nat (seq 0 (2 ^ n)).
Proof.
  induction n as [|n IH]; [reflexivity|].
  cbn [all_bits Nat.pow].
  replace (2 * 2 ^ n)%nat with (2 ^ n + 2 ^ n)%nat by lia.
  rewrite seq_app, !map_app, !map_map.
  f_equal.
  - rewrite <- IH.
    apply map_ext. intros a.
    rewrite binary_value_cons. lia.
  - replace (seq (0 + 2 ^ n) (2 ^ n))
      with (map (Nat.add (2 ^ n)) (seq 0 (2 ^ n)))
      by (rewrite <- seq_offset; f_equal; lia).
    rewrite map_map.
    transitivity (map (fun a => 2 ^ Z.of_nat n + binary_value a) (all_bits n)).
    + apply map_ext_in. intros a Ha.
      pose proof (all_bits_assignment n) as Hall.
      rewrite Forall_forall in Hall.
      destruct (Hall a Ha) as [Hlen _].
      rewrite binary_value_cons, Hlen. lia.
    + rewrite <- (map_map binary_value (fun z => 2 ^ Z.of_nat n + z)), IH.
      rewrite map_map.
      apply map_ext. intros k.
      rewrite Nat2Z.inj_add, Nat2Z.inj_pow. reflexivity.
Qed.

(** Two bit strings of one length that denote the same integer are the
    same string. *)
Lemma binary_value_inj (n : nat) (a b : list Z) :
  assignment n a -> assignment n b ->
  binary_value a = binary_value b -> a = b.
Proof.
  revert a b.
  induction n as [|n IH]; intros a b [Hla Hba] [Hlb Hbb] Hv.
  - destruct a, b; try discriminate. reflexivity.
  - destruct a as [|x a], b as [|y b]; try discriminate.
    cbn [List.length] in Hla, Hlb.
    injection Hla as Hla. injection Hlb as Hlb.
    inversion Hba as [|? ? Hx Hba']; subst.
    inversion Hbb as [|? ? Hy Hbb']; subst.
    rewrite !binary_value_cons, Hlb in Hv.
    pose proof (binary_value_bound a Hba') as Ba.
    pose proof (binary_value_bound b Hbb') as Bb.
    rewrite Hlb in Bb.
    assert (x = y) by (destruct Hx, Hy; subst; lia).
    subst y.
    f_equal.
    apply IH; [split; [reflexivity | assumption] | split; assumption | lia].
Qed.

Lemma same_values_same_strings (n : nat) (l1 l2 : list (list Z)) :
  Forall (assignment n) l1 -> Forall (assignment n) l2 ->
  map binary_value l1 = map binary_value l2 -> l1 = l2.
Proof.
  intros H1. revert l2.
  induction H1 as [|a l1 Ha _ IH]; intros l2 H2 Hv.
  - destruct l2; [reflexivity | discriminate].
  - destruct l2 as [|b l2]; [discriminate|].
    inversion H2 as [|? ? Hb H2']; subst.
    cbn [map] in Hv. injection Hv as Hab Hv.
    f_equal; [eapply binary_value_inj; eassumption | now apply IH].
Qed.

Lemma all_bits_complete (n : nat) (a : list Z) :
  assignment n a -> In a (all_bits n).
Proof.
  revert a.
  induction n as [|n IH]; intros a [Hlen Hbits].
  - destruct a; [now left | discriminate].
  - destruct a as [|x a]; [discriminate|].
    inversion Hbits as [|? ? Hx Hbits']; subst.
    cbn [List.length] in Hlen. injection Hlen as Hlen.
    cbn [all_bits]. apply in_or_app.
    destruct Hx; subst x; [left | right];
      apply in_map; apply IH; split; assumption.
Qed.

Lemma candidates_length (L : nat) : List.length (candidates L) = (2 ^ L)%nat.
Proof.
  unfold candidates, Numpy.range.
  now rewrite !length_map, length_seq.
Qed.

(** The [i]-th candidate denotes [i]: the loop runs in increasing integer
    order. *)
Lemma candidates_values (L : nat) :
  map binary_value (candidates L) = map Z.of_nat (seq 0 (2 ^ L)).
Proof.
  unfold candidates, Numpy.range.
  rewrite !map_map.
  apply map_ext. intros k.
  rewrite bitfield_value. lia.
Qed.

Lemma candidates_bits (L : nat) : Forall (Forall is_bit) (candidates L).
Proof.
  unfold candidates.
  apply Forall_map, Forall_forall.
  intros i _. apply bitfield_bits.
Qed.

Lemma candidates_assignment (L : nat) :
  (1 <= L)%nat -> Forall (assignment L) (candidates L).
Proof.
  intros HL.
  unfold candidates, Numpy.range.
  rewrite map_map.
  apply Forall_map, Forall_forall.
  intros k Hk. apply in_seq in Hk.
  split; [|apply bitfield_bits].
  apply bitfield_length; [assumption|].
  pose proof (Nat2Z.inj_pow 2 L) as Hpow.
  change (Z.of_nat 2) with 2 in Hpow.
  rewrite nat_N_Z. lia.
Qed.

(** From one vertex on, the loop visits the binary strings of length [L],
    all of them, each once, in increasing order. *)
Lemma candidates_all_bits (L : nat) :
  (1 <= L)%nat -> candidates L = all_bits L.
Proof.
  intros HL.
  apply (same_values_same_strings L).
  - now apply candidates_assignment.
  - apply all_bits_assignment.
  - now rewrite candidates_values, all_bits_values.
Qed.

(** With no vertex, [np.binary_repr(0, 0)] still prints one digit. *)
Lemma candidates_0 : candidates 0 = [[0]].
Proof. reflexivity. Qed.

End Enumeration.

(** ** The loop of [brute_force] *)

Section Loop.

Variable objective : list Z -> Z.
Variable L : nat.

Lemma count_nonzero_ones (a : list Z) :
  Forall is_bit a -> Numpy.count_nonzero a = Z.of_nat (ones a).
Proof.
  unfold Numpy.count_nonzero, ones.
  induction 1 as [|d a Hd _ IH]; [reflexivity|].
  apply Nat2Z.inj in IH.
  f_equal.
  destruct Hd; subst d; cbn [filter count_occ Z.eqb negb];
    [destruct (Z.eq_dec 0 1); [discriminate|]
    |destruct (Z.eq_dec 1 1); [|contradiction]];
    cbn [List.length]; lia.
Qed.

(** On the digits of [bitfield] the test of the loop is the balance
    test. *)
Lemma balance_test (i : N) :
  negb (Numpy.count_nonzero (bitfield i L) * 2 =? Z.of_nat L)
  = negb (balancedb L (bitfield i L)).
Proof.
  rewrite (count_nonzero_ones _ (bitfield_bits i L)).
  unfold balancedb.
  f_equal.
  destruct (Nat.eqb_spec (2 * ones (bitfield i L)) L) as [E|E].
  - apply Z.eqb_eq. lia.
  - apply Z.eqb_neq. lia.
Qed.

Lemma brute_force_body_eq (st : loop_state) (i : N) :
  brute_force_body objective L st i
  = if balancedb L (bitfield i L)
    then {| minimal_v := track (minimal_v st) (objective (bitfield i L));
            evaluated := evaluated st ++ [bitfield i L] |}
    else st.
Proof.
  unfold brute_force_body. cbv zeta.
  rewrite balance_test.
  destruct (balancedb L (bitfield i L)); reflexivity.
Qed.

(** The state after running the loop body over the indices [idx]. *)
Lemma loop_evaluated (idx : list N) (st : loop_state) :
  evaluated (fold_left (brute_force_body objective L) idx st)
  = evaluated st
    ++ filter (balancedb L) (map (fun i => bitfield i L) idx).
Proof.
  revert st.
  induction idx as [|i idx IH]; intros st; cbn [fold_left map filter].
  - now rewrite app_nil_r.
  - rewrite IH, brute_force_body_eq.
    destruct (balancedb L (bitfield i L)); cbn [evaluated]; [|reflexivity].
    now rewrite <- app_assoc.
Qed.

Lemma loop_minimal_v (idx : list N) (st : loop_state) :
  minimal_v (fold_left (brute_force_body objective L) idx st)
  = fold_left track
      (map objective (filter (balancedb L) (map (fun i => bitfield i L) idx)))
      (minimal_v st).
Proof.
  revert st.
  induction idx as [|i idx IH]; intros st; cbn [fold_left map filter].
  - reflexivity.
  - rewrite IH, brute_force_body_eq.
    destruct (balancedb L (bitfield i L)); reflexivity.
Qed.

End Loop.

(** ** The tracked minimum *)

Section Minimum.

Lemma track_fold (vs : list Z) (m0 : value) :
  fold_left track vs m0
  = match m0, minimum vs with
    | Inf, r => r
    | Finite a, Inf => Finite a
    | Finite a, Finite b => Finite (Z.min a b)
    end.
Proof.
  revert m0.
  induction vs as [|v vs IH]; intros m0; cbn [fold_left minimum].
  - destruct m0; reflexivity.
  - rewrite IH.
    unfold track, value_lt.
    destruct m0 as [a|], (minimum vs) as [b|]; try reflexivity.
    + destruct (Z.ltb_spec v a); f_equal; lia.
    + destruct (Z.ltb_spec v a); f_equal; lia.
Qed.

Lemma track_fold_Inf (vs : list Z) : fold_left track vs Inf = minimum vs.
Proof.
  now rewrite track_fold.
Qed.

Lemma minimum_Inf (vs : list Z) : minimum vs = Inf <-> vs = [].
Proof.
  split; [|intros ->; reflexivity].
  destruct vs as [|v vs]; [reflexivity|].
  cbn [minimum]. destruct (minimum vs); discriminate.
Qed.

Lemma minimum_Finite (vs : list Z) (m : Z) :
  minimum vs = Finite m -> In m vs /\ Forall (fun v => m <= v) vs.
Proof.
  revert m.
  induction vs as [|v vs IH]; intros m; cbn [minimum]; [discriminate|].
  destruct (minimum vs) as [b|] eqn:E; intros [= <-].
  - destruct (IH b eq_refl) as [Hin Hall].
    split.
    + destruct (Z.min_spec v b) as [[_ ->]|[_ ->]]; [now left | now right].
    + constructor; [lia|].
      eapply Forall_impl; [|exact Hall].
      intros z Hz. cbn beta in Hz |- *. lia.
  - apply minimum_Inf in E. subst vs.
    split; [now left | repeat constructor; lia].
Qed.

(** What [minimum] returns, in one statement. *)
Lemma minimum_spec (vs : list Z) :
  match minimum vs with
  | Inf => vs = []
  | Finite m => In m vs /\ Forall (fun v => m <= v) vs
  end.
Proof.
  destruct (minimum vs) as [m|] eqn:E.
  - now apply minimum_Finite.
  - now apply minimum_Inf.
Qed.

End Minimum.

(** ** The brute-force solver *)

Section BruteForceFacts.

Lemma brute_force_loop_evaluated (objective : list Z -> Z) (n : nat) :
  evaluated (brute_force_loop objective n)
  = filter (balancedb n) (candidates n).
Proof.
  unfold brute_force_loop. cbv zeta.
  now rewrite loop_evaluated.
Qed.

Lemma brute_force_loop_minimal_v (objective : list Z -> Z) (n : nat) :
  minimal_v (brute_force_loop objective n)
  = minimum (map objective (filter (balancedb n) (candidates n))).
Proof.
  unfold brute_force_loop. cbv zeta.
  now rewrite loop_minimal_v, track_fold_Inf.
Qed.

(** On graphs with at least one vertex, [brute_force] is the balanced
    instance of the Exact Solver. *)
Lemma brute_force_exact_solver (n : nat) (w : list (list Z)) :
  (1 <= n)%nat ->
  brute_force n w
  = exact_solver true (fun a => graph_partition.objective_value a w) n.
Proof.
  intros Hn.
  unfold brute_force, exact_solver.
  now rewrite brute_force_loop_minimal_v, candidates_all_bits.
Qed.

(** C1: for a problem of size [n >= 1] the loop of [brute_force] visits
    the [2^n] binary strings of length [n], all of them and in increasing
    integer order ([candidates n] is [all_bits n], its [i]-th entry
    denoting [i]); it calls the objective on the balanced ones and on no
    other; and the value returned is the minimum of the objective over
    those: it is one of the values seen and below all of them, or the
    initial [Inf] when nothing was evaluated. *)
Theorem brute_force_enumerates_and_minimises
  (objective : list Z -> Z) (n : nat) (w : list (list Z)) :
  (1 <= n)%nat ->
  let st := brute_force_loop objective n in
  candidates n = all_bits n
  /\ List.length (candidates n) = (2 ^ n)%nat
  /\ Forall (assignment n) (candidates n)
  /\ map binary_value (candidates n) = map Z.of_nat (seq 0 (2 ^ n))
  /\ evaluated st = filter (balancedb n) (all_bits n)
  /\ minimal_v st = minimum (map objective (evaluated st))
  /\ match minimal_v st with
     | Inf => evaluated st = []
     | Finite m =>
         In m (map objective (evaluated st))
         /\ Forall (fun v => m <= v) (map objective (evaluated st))
     end
  /\ brute_force n w
     = exact_solver true (fun a => graph_partition.objective_value a w) n.
Proof.
  intros Hn st.
  assert (Hev : evaluated st = filter (balancedb n) (candidates n))
    by apply brute_force_loop_evaluated.
  assert (Hmin : minimal_v st = minimum (map objective (evaluated st))).
  { rewrite Hev. apply brute_force_loop_minimal_v. }
  repeat split.
  - now apply candidates_all_bits.
  - apply candidates_length.
  - now apply candidates_assignment.
  - apply candidates_values.
  - now rewrite Hev, candidates_all_bits.
  - exact Hmin.
  - rewrite Hmin.
    pose proof (minimum_spec (map objective (evaluated st))) as Hspec.
    destruct (minimum (map objective (evaluated st))); [exact Hspec|].
    now apply map_eq_nil in Hspec.
  - now apply brute_force_exact_solver.
Qed.

Lemma brute_force_enumerates_and_minimises_witness :
  (1 <= 4)%nat
  /\ candidates 4 = all_bits 4
  /\ evaluated (brute_force_loop (fun a => binary_value a) 4)
     = [[0; 0; 1; 1]; [0; 1; 0; 1]; [0; 1; 1; 0];
        [1; 0; 0; 1]; [1; 0; 1; 0]; [1; 1; 0; 0]]
  /\ minimal_v (brute_force_loop (fun a => binary_value a) 4) = Finite 3.
Proof.
  pose proof (brute_force_enumerates_and_minimises
                (fun a => binary_value a) 4 sample_w) as H.
  split; [lia|].
  destruct (H ltac:(lia)) as (Hc & _ & _ & _ & Hev & Hmin & _).
  split; [exact Hc|].
  split; [rewrite Hev; reflexivity|].
  rewrite Hmin, Hev. reflexivity.
Defined.

(** C9: at every point of the loop, after any number [k] of iterations
    and at its end, each argument the objective has been called with is a
    bit string with exactly [n/2] ones. *)
Theorem objective_called_on_balanced_only
  (objective : list Z -> Z) (n k : nat) :
  Forall (fun a => balanced n a /\ Forall is_bit a)
    (evaluated
       (fold_left (brute_force_body objective n)
          (firstn k (Numpy.range (2 ^ n))) initial_state))
  /\ Forall (fun a => balanced n a /\ Forall is_bit a)
       (evaluated (brute_force_loop objective n)).
Proof.
  assert (H : forall idx,
             Forall (fun a => balanced n a /\ Forall is_bit a)
               (evaluated
                  (fold_left (brute_force_body objective n) idx
                     initial_state))).
  { intros idx.
    rewrite loop_evaluated. cbn [evaluated initial_state app].
    apply Forall_forall. intros a Ha.
    apply filter_In in Ha. destruct Ha as [Ha Hb].
    split.
    - now apply Nat.eqb_eq in Hb.
    - apply in_map_iff in Ha. destruct Ha as (i & <- & _).
      apply bitfield_bits. }
  split; apply H.
Qed.

Lemma ones_app (a b : list Z) : ones (a ++ b) = (ones a + ones b)%nat.
Proof.
  apply count_occ_app.
Qed.

Lemma ones_repeat_0 (k : nat) : ones (repeat 0 k) = 0%nat.
Proof.
  induction k as [|k IH]; [reflexivity|].
  unfold ones in *. cbn [repeat count_occ].
  destruct (Z.eq_dec 0 1); [discriminate | exact IH].
Qed.

Lemma ones_repeat_1 (k : nat) : ones (repeat 1 k) = k.
Proof.
  induction k as [|k IH]; [reflexivity|].
  unfold ones in *. cbn [repeat count_occ].
  destruct (Z.eq_dec 1 1); [now rewrite IH | contradiction].
Qed.

Lemma is_bit_ones (k : nat) : Forall is_bit (repeat 1 k).
Proof.
  induction k as [|k IH]; cbn [repeat]; constructor.
  - now right.
  - exact IH.
Qed.

(** Half zeros then half ones: a balanced assignment of every even
    size. *)
Lemma half_half_balanced (k : nat) :
  assignment (2 * k) (repeat 0 k ++ repeat 1 k)
  /\ balanced (2 * k) (repeat 0 k ++ repeat 1 k).
Proof.
  repeat split.
  - rewrite length_app, !repeat_length. lia.
  - apply Forall_app; split; [apply is_bit_zeros | apply is_bit_ones].
  - unfold balanced.
    rewrite ones_app, ones_repeat_0, ones_repeat_1. lia.
Qed.

(** C10: for every even size [n >= 2], whatever the objective, the loop
    ends with a finite [minimal_v], and so [brute_force] returns a finite
    value and not [Inf]: the candidates all have length [n], one of them
    at least is balanced, and the minimum has been updated (the objective
    has been called). *)
Theorem brute_force_finite_on_even_sizes
  (objective : list Z -> Z) (n : nat) (w : list (list Z)) :
  (2 <= n)%nat -> Nat.even n = true ->
  (exists v, brute_force n w = Finite v)
  /\ (exists v, minimal_v (brute_force_loop objective n) = Finite v)
  /\ Exists (balanced n) (candidates n)
  /\ Forall (fun a => List.length a = n) (candidates n)
  /\ evaluated (brute_force_loop objective n) <> [].
Proof.
  intros Hn Heven.
  apply Nat.even_spec in Heven. destruct Heven as [k Hk].
  destruct (half_half_balanced k) as [Hassign Hbal].
  rewrite <- Hk in Hassign, Hbal.
  set (a0 := repeat 0 k ++ repeat 1 k) in *.
  assert (Hin : In a0 (candidates n)).
  { rewrite candidates_all_bits by lia. now apply all_bits_complete. }
  assert (Hkept : In a0 (filter (balancedb n) (candidates n))).
  { apply filter_In. split; [exact Hin|]. now apply Nat.eqb_eq. }
  assert (Hfin : forall obj,
             exists v, minimal_v (brute_force_loop obj n) = Finite v).
  { intros obj.
    rewrite brute_force_loop_minimal_v.
    destruct (minimum (map obj (filter (balancedb n) (candidates n))))
      as [v|] eqn:E; [now exists v|].
    apply minimum_Inf, map_eq_nil in E.
    rewrite E in Hkept. contradiction. }
  repeat split.
  - apply Hfin.
  - apply Hfin.
  - apply Exists_exists. now exists a0.
  - eapply Forall_impl; [|apply candidates_assignment; lia].
    now intros a [Hlen _].
  - rewrite brute_force_loop_evaluated.
    intros E. rewrite E in Hkept. contradiction.
Qed.

Lemma brute_force_finite_on_even_sizes_witness :
  ((2 <= 4)%nat /\ Nat.even 4 = true)
  /\ (exists v, brute_force 4 sample_w = Finite v).
Proof.
  split; [split; [lia | reflexivity]|].
  apply (brute_force_finite_on_even_sizes
           (fun a => graph_partition.objective_value a sample_w) 4 sample_w);
    [lia | reflexivity].
Defined.

(** C5: with a single vertex no assignment is balanced, the objective is
    never called, and [brute_force] hands back the [Inf] it started from,
    which is how it tells that no balanced assignment exists; it does not
    return 0. *)
Theorem single_vertex_no_balanced_assignment
  (objective : list Z -> Z) (w : list (list Z)) :
  brute_force 1 w = Inf
  /\ brute_force 1 w <> Finite 0
  /\ minimal_v (brute_force_loop objective 1) = Inf
  /\ evaluated (brute_force_loop objective 1) = []
  /\ candidates 1 = [[0]; [1]]
  /\ (forall a : list Z, balancedb 1 a = false).
Proof.
  assert (Hmin : forall obj, minimal_v (brute_force_loop obj 1) = Inf).
  { intros obj. rewrite brute_force_loop_minimal_v. reflexivity. }
  assert (Hbf : brute_force 1 w = Inf) by apply Hmin.
  split; [exact Hbf|].
  split; [rewrite Hbf; discriminate|].
  split; [apply Hmin|].
  split; [rewrite brute_force_loop_evaluated; reflexivity|].
  split; [reflexivity|].
  intros a. unfold balancedb.
  apply Nat.eqb_neq. lia.
Qed.

(** C2: on the four-node graph of the notebook [brute_force] returns 3;
    the assignment [0,1,0,1] is balanced, is one of those evaluated, and
    has objective value 3; no balanced assignment does better, and it is
    the first in enumeration order to reach 3. *)
Theorem brute_force_sample_graph :
  brute_force 4 sample_w = Finite 3
  /\ graph_partition.objective_value [0; 1; 0; 1] sample_w = 3
  /\ balanced 4 [0; 1; 0; 1]
  /\ In [0; 1; 0; 1]
       (evaluated
          (brute_force_loop
             (fun a => graph_partition.objective_value a sample_w) 4))
  /\ Forall (fun a => 3 <= graph_partition.objective_value a sample_w)
       (filter (balancedb 4) (all_bits 4))
  /\ exact_solver_assignment true
       (fun a => graph_partition.objective_value a sample_w) 4
     = Some [0; 1; 0; 1].
Proof.
  split; [vm_compute; reflexivity|].
  split; [vm_compute; reflexivity|].
  split; [reflexivity|].
  split; [|split].
  - rewrite brute_force_loop_evaluated.
    vm_compute. right. left. reflexivity.
  - vm_compute. repeat constructor; discriminate.
  - vm_compute. reflexivity.
Qed.

End BruteForceFacts.

(** ** Indexed sums *)

Section IndexedSums.

Lemma isum_ext (n : nat) (f g : nat -> Z) :
  (forall i, (i < n)%nat -> f i = g i) -> isum n f = isum n g.
Proof.
  induction n as [|n IH]; intros H; [reflexivity|].
  cbn [isum].
  rewrite IH, (H n) by (intros; try apply H; lia).
  reflexivity.
Qed.

Lemma isum_zero (n : nat) : isum n (fun _ => 0) = 0.
Proof.
  induction n as [|n IH]; cbn [isum]; lia.
Qed.

Lemma isum_add (n : nat) (f g : nat -> Z) :
  isum n (fun i => f i + g i) = isum n f + isum n g.
Proof.
  induction n as [|n IH]; cbn [isum]; lia.
Qed.

(** Peeling the first term instead of the last. *)
Lemma isum_shift (n : nat) (f : nat -> Z) :
  isum (S n) f = f 0%nat + isum n (fun i => f (S i)).
Proof.
  induction n as [|n IH].
  - cbn [isum]. lia.
  - cbn [isum] in *. lia.
Qed.

Lemma isum_swap (n m : nat) (g : nat -> nat -> Z) :
  isum n (fun i => isum m (fun j => g i j))
  = isum m (fun j => isum n (fun i => g i j)).
Proof.
  induction n as [|n IH]; cbn [isum].
  - now rewrite isum_zero.
  - now rewrite IH, isum_add.
Qed.

Lemma sum_isum (l : list Z) :
  Numpy.sum l = isum (List.length l) (at_ l).
Proof.
  induction l as [|v l IH]; [reflexivity|].
  cbn [List.length]. rewrite isum_shift.
  cbn [Numpy.sum fold_right] in *. unfold Numpy.sum in IH.
  rewrite IH. reflexivity.
Qed.

End IndexedSums.

(** ** The number-partition objective *)

Section NumberPartition.

Lemma select_complement (b : Z) (x number_list : list Z) :
  Numpy.select b (complement x) number_list
  = Numpy.select (1 - b) x number_list.
Proof.
  unfold Numpy.select, complement.
  revert number_list.
  induction x as [|xi x IH]; intros [|v nl]; try reflexivity.
  cbn [map combine filter fst].
  replace (1 - xi =? b) with (xi =? 1 - b).
  - destruct (xi =? 1 - b); cbn [map snd]; now rewrite IH.
  - destruct (Z.eqb_spec xi (1 - b)), (Z.eqb_spec (1 - xi) b);
      try reflexivity; lia.
Qed.

(** C3: flipping every bit of an assignment leaves the number-partition
    objective unchanged, for every assignment and every number list. *)
Theorem partition_value_complement (a number_list : list Z) :
  partition.partition_value a number_list
  = partition.partition_value (complement a) number_list.
Proof.
  unfold partition.partition_value. cbv zeta.
  rewrite !select_complement.
  change (1 - 0) with 1. change (1 - 1) with 0.
  ring.
Qed.

(** The masked sum of [partition_value] is the sum of the numbers assigned
    the bit. *)
Lemma sum_select (b : Z) (a number_list : list Z) :
  Numpy.sum (Numpy.select b a number_list) = subset_sum b a number_list.
Proof.
  unfold subset_sum, at_.
  revert a.
  induction number_list as [|v nl IH]; intros a.
  - destruct a; reflexivity.
  - cbn [List.length]. rewrite isum_shift.
    destruct a as [|x a].
    + cbn [nth_error]. rewrite isum_zero. reflexivity.
    + cbn [nth_error nth].
      rewrite <- (IH a).
      unfold Numpy.select. cbn [combine filter fst].
      destruct (x =? b); reflexivity.
Qed.

(** C8: the number-partition objective is the square of the difference
    between the sum of the numbers assigned bit 0 and the sum of those
    assigned bit 1.  It is the squared, not the absolute, difference: on
    [5, 2] split as [0, 1] it is 9 where the difference is 3. *)
Theorem partition_value_squared_difference (a number_list : list Z) :
  partition.partition_value a number_list
  = (subset_sum 0 a number_list - subset_sum 1 a number_list) ^ 2
  /\ partition.partition_value a number_list
     = Z.abs (subset_sum 0 a number_list - subset_sum 1 a number_list) ^ 2
  /\ partition.partition_value [0; 1] [5; 2] = 9
  /\ Z.abs (subset_sum 0 [0; 1] [5; 2] - subset_sum 1 [0; 1] [5; 2]) = 3.
Proof.
  split; [|split; [|split; reflexivity]].
  - unfold partition.partition_value. cbv zeta.
    rewrite !sum_select. ring.
  - unfold partition.partition_value. cbv zeta.
    rewrite !sum_select.
    rewrite <- Z.abs_square. ring.
Qed.

(** The solutions the notebook prints for [9, 8, 23, 4, 2] have objective
    0, as printed. *)
Example partition_value_printed :
  partition.partition_value [1; 1; 0; 1; 1] [9; 8; 23; 4; 2] = 0
  /\ partition.partition_value [0; 0; 1; 0; 0] [9; 8; 23; 4; 2] = 0.
Proof.
  split; reflexivity.
Qed.

End NumberPartition.

(** ** The graph-partition objective *)

Section GraphPartition.

Lemma zip_with_length {A B C : Type} (f : A -> B -> C)
  (a : list A) (b : list B) :
  List.length (Numpy.zip_with f a b)
  = Nat.min (List.length a) (List.length b).
Proof.
  revert b.
  induction a as [|x a IH]; intros [|y b]; cbn [Numpy.zip_with List.length];
    try reflexivity.
  now rewrite IH.
Qed.

Lemma zip_with_nth {A B C : Type} (f : A -> B -> C)
  (a : list A) (b : list B) (i : nat) (da : A) (db : B) (dc : C) :
  (i < List.length a)%nat -> (i < List.length b)%nat ->
  nth i (Numpy.zip_with f a b) dc = f (nth i a da) (nth i b db).
Proof.
  revert b i.
  induction a as [|x a IH]; intros [|y b] i Ha Hb;
    cbn [List.length] in *; try lia.
  destruct i as [|i]; cbn [Numpy.zip_with nth]; [reflexivity|].
  apply IH; lia.
Qed.

Lemma square_row (n : nat) (w : list (list Z)) (i : nat) :
  square n w -> (i < n)%nat -> List.length (nth i w []) = n.
Proof.
  intros [Hlen Hrows] Hi.
  rewrite Forall_forall in Hrows.
  apply Hrows, nth_In. lia.
Qed.

Lemma square_where_nonzero (n : nat) (w : list (list Z)) :
  square n w -> square n (Numpy.where_nonzero w).
Proof.
  intros [Hlen Hrows].
  unfold Numpy.where_nonzero.
  split; [now rewrite length_map|].
  apply Forall_map.
  eapply Forall_impl; [|exact Hrows].
  intros row Hrow. cbn beta. now rewrite length_map.
Qed.

Lemma square_outer (n : nat) (a b : list Z) :
  List.length a = n -> List.length b = n -> square n (Numpy.outer a b).
Proof.
  intros Ha Hb.
  unfold Numpy.outer.
  split; [now rewrite length_map|].
  apply Forall_map, Forall_forall.
  intros ai _. now rewrite length_map.
Qed.

Lemma entry_where_nonzero (w : list (list Z)) (i j : nat) :
  entry (Numpy.where_nonzero w) i j
  = if entry w i j =? 0 then 0 else 1.
Proof.
  unfold entry, Numpy.where_nonzero.
  set (g := fun v : Z => if v =? 0 then 0 else 1).
  change (nth i (map (map g) w) []) with (nth i (map (map g) w) (map g [])).
  rewrite (map_nth (map g) w [] i).
  change (nth j (map g (nth i w [])) 0)
    with (nth j (map g (nth i w [])) (g 0)).
  now rewrite (map_nth g (nth i w []) 0 j).
Qed.

Lemma entry_outer (a b : list Z) (i j : nat) :
  (i < List.length a)%nat -> (j < List.length b)%nat ->
  entry (Numpy.outer a b) i j = at_ a i * at_ b j.
Proof.
  intros Hi Hj.
  unfold entry, Numpy.outer, at_.
  rewrite (nth_indep _ [] (map (fun bj => 0 * bj) b))
    by now rewrite length_map.
  rewrite (map_nth (fun ai => map (fun bj => ai * bj) b) a 0 i).
  rewrite (nth_indep _ 0 (nth i a 0 * 0)) by now rewrite length_map.
  now rewrite (map_nth (fun bj => nth i a 0 * bj) b 0 j).
Qed.

Lemma at_complement (a : list Z) (i : nat) :
  (i < List.length a)%nat -> at_ (complement a) i = 1 - at_ a i.
Proof.
  intros Hi.
  unfold at_, complement.
  rewrite (nth_indep _ 0 (1 - 0)) by now rewrite length_map.
  now rewrite (map_nth (fun b => 1 - b) a 0 i).
Qed.

(** The sum of an entry-wise product, index by index. *)
Lemma sum2_multiply (n : nat) (A B : list (list Z)) :
  square n A -> square n B ->
  Numpy.sum2 (Numpy.multiply A B)
  = isum n (fun i => isum n (fun j => entry A i j * entry B i j)).
Proof.
  intros HA HB.
  pose proof HA as [HlA _]. pose proof HB as [HlB _].
  unfold Numpy.sum2, Numpy.multiply.
  rewrite sum_isum, length_map, zip_with_length, HlA, HlB, Nat.min_id.
  apply isum_ext. intros i Hi.
  unfold at_.
  change 0 with (Numpy.sum []) at 1.
  rewrite map_nth.
  rewrite (zip_with_nth _ A B i [] [] []) by lia.
  rewrite sum_isum, zip_with_length.
  rewrite (square_row n A i HA Hi), (square_row n B i HB Hi), Nat.min_id.
  apply isum_ext. intros j Hj.
  unfold at_, entry.
  apply zip_with_nth.
  - now rewrite (square_row n A i HA Hi).
  - now rewrite (square_row n B i HB Hi).
Qed.

(** [objective_value] counts the ordered pairs [(i, j)] joined by an edge
    with [x[i] = 1] and [x[j] = 0]. *)
Lemma objective_value_index (n : nat) (x : list Z) (w : list (list Z)) :
  square n w -> List.length x = n ->
  graph_partition.objective_value x w
  = isum n (fun i => isum n (fun j =>
      (if entry w i j =? 0 then 0 else 1) * (at_ x i * (1 - at_ x j)))).
Proof.
  intros Hw Hx.
  unfold graph_partition.objective_value. cbv zeta.
  rewrite (sum2_multiply n).
  - apply isum_ext. intros i Hi.
    apply isum_ext. intros j Hj.
    rewrite entry_where_nonzero.
    rewrite entry_outer by (rewrite ?length_map; lia).
    fold (complement x).
    rewrite at_complement by lia.
    reflexivity.
  - now apply square_where_nonzero.
  - apply square_outer; [assumption | now rewrite length_map].
Qed.

Lemma complement_length (a : list Z) :
  List.length (complement a) = List.length a.
Proof.
  apply length_map.
Qed.

(** The invariance needs the symmetry of [w] and nothing about the
    assignment but its length. *)
Lemma objective_value_complement (n : nat) (a : list Z) (w : list (list Z)) :
  square n w -> symmetric n w -> List.length a = n ->
  graph_partition.objective_value a w
  = graph_partition.objective_value (complement a) w.
Proof.
  intros Hsq Hsym Hlen.
  rewrite (objective_value_index n a w Hsq Hlen).
  rewrite (objective_value_index n (complement a) w Hsq)
    by now rewrite complement_length.
  rewrite isum_swap.
  apply isum_ext. intros i Hi.
  apply isum_ext. intros j Hj.
  rewrite !at_complement by lia.
  rewrite (Hsym j i Hj Hi).
  ring.
Qed.

(** The objective in the words of section 4.1 is invariant as well. *)
Lemma crossing_weight_complement (a : list Z) (w : list (list Z)) :
  crossing_weight a w = crossing_weight (complement a) w.
Proof.
  unfold crossing_weight. cbv zeta.
  rewrite complement_length.
  apply isum_ext. intros i Hi.
  apply isum_ext. intros j Hj.
  rewrite !at_complement by lia.
  replace (1 - at_ a i =? 1 - at_ a j) with (at_ a i =? at_ a j);
    [reflexivity|].
  destruct (Z.eqb_spec (at_ a i) (at_ a j)),
    (Z.eqb_spec (1 - at_ a i) (1 - at_ a j)); try reflexivity; lia.
Qed.

(** C4: for every symmetric [n] by [n] matrix [w] and every balanced
    assignment [a], flipping all bits of [a] leaves the graph-partition
    objective unchanged; this holds for [objective_value] as the notebook
    calls it and for the objective as section 4.1 words it. *)
Theorem graph_objective_complement
  (n : nat) (a : list Z) (w : list (list Z)) :
  square n w -> symmetric n w -> assignment n a -> balanced n a ->
  graph_partition.objective_value a w
  = graph_partition.objective_value (complement a) w
  /\ crossing_weight a w = crossing_weight (complement a) w.
Proof.
  intros Hsq Hsym [Hlen _] _.
  split.
  - now apply (objective_value_complement n).
  - apply crossing_weight_complement.
Qed.

Lemma at_bit (n : nat) (a : list Z) (i : nat) :
  assignment n a -> (i < n)%nat -> is_bit (at_ a i).
Proof.
  intros [Hlen Hbits] Hi.
  rewrite Forall_forall in Hbits.
  apply Hbits, nth_In. lia.
Qed.

Lemma isum2_add (n m : nat) (p q : nat -> nat -> Z) :
  isum n (fun i => isum m (fun j => p i j + q i j))
  = isum n (fun i => isum m (fun j => p i j))
    + isum n (fun i => isum m (fun j => q i j)).
Proof.
  rewrite <- isum_add.
  apply isum_ext. intros i _.
  apply isum_add.
Qed.

(** On a symmetric matrix and a binary assignment, [objective_value] is
    the number of crossing edges, as the notebook says: the objective of
    section 4.1 taken on the graph with every weight replaced by 1. *)
Lemma objective_value_counts_crossing_edges
  (n : nat) (a : list Z) (w : list (list Z)) :
  square n w -> symmetric n w -> assignment n a ->
  graph_partition.objective_value a w
  = crossing_weight a (Numpy.where_nonzero w).
Proof.
  intros Hsq Hsym Ha.
  pose proof Ha as [Hlen _].
  rewrite (objective_value_index n a w Hsq Hlen).
  unfold crossing_weight. cbv zeta. rewrite Hlen.
  set (g := fun i j =>
              (if entry w i j =? 0 then 0 else 1)
              * (at_ a i * (1 - at_ a j))).
  transitivity
    (isum n (fun i => isum n (fun j =>
       (if Nat.ltb i j then g i j else 0)
       + (if Nat.ltb j i then g i j else 0)))).
  { apply isum_ext. intros i Hi.
    apply isum_ext. intros j Hj.
    unfold g.
    destruct (Nat.ltb_spec i j), (Nat.ltb_spec j i);
      try ring; try (exfalso; lia).
    assert (i = j) by lia. subst j.
    destruct (at_bit n a i Ha Hi) as [E|E]; rewrite E; ring. }
  rewrite isum2_add.
  rewrite (isum_swap n n (fun i j => if Nat.ltb j i then g i j else 0)).
  rewrite <- isum2_add.
  apply isum_ext. intros i Hi.
  apply isum_ext. intros j Hj.
  rewrite entry_where_nonzero.
  destruct (Nat.ltb_spec i j) as [Hij|Hij]; cbn [andb]; [|reflexivity].
  unfold g.
  rewrite (Hsym j i Hj Hi).
  destruct (at_bit n a i Ha Hi) as [Ei|Ei],
    (at_bit n a j Ha Hj) as [Ej|Ej]; rewrite Ei, Ej;
    destruct (entry w i j =? 0); reflexivity.
Qed.

Lemma sample_w_square : square 4 sample_w.
Proof.
  split; [reflexivity | repeat constructor].
Qed.

Lemma sample_w_symmetric : symmetric 4 sample_w.
Proof.
  intros i j Hi Hj.
  destruct i as [|[|[|[|i]]]]; try lia;
    destruct j as [|[|[|[|j]]]]; try lia; reflexivity.
Qed.

Lemma graph_objective_complement_witness :
  (square 4 sample_w /\ symmetric 4 sample_w
   /\ assignment 4 [0; 1; 0; 1] /\ balanced 4 [0; 1; 0; 1])
  /\ graph_partition.objective_value [0; 1; 0; 1] sample_w
     = graph_partition.objective_value (complement [0; 1; 0; 1]) sample_w.
Proof.
  assert (Ha : assignment 4 [0; 1; 0; 1]) by literal_bits.
  assert (Hb : balanced 4 [0; 1; 0; 1]) by reflexivity.
  split.
  - split; [apply sample_w_square|].
    split; [apply sample_w_symmetric|].
    split; [exact Ha | exact Hb].
  - apply (graph_objective_complement 4 [0; 1; 0; 1] sample_w
             sample_w_square sample_w_symmetric Ha Hb).
Defined.

(** On the sample graph the weights of the edges crossing [0,1,0,1] sum
    to 2, where the notebook prints 3, the number of those edges. *)
Example crossing_weight_sample :
  crossing_weight [0; 1; 0; 1] sample_w = 2
  /\ graph_partition.objective_value [0; 1; 0; 1] sample_w = 3.
Proof.
  split; reflexivity.
Qed.

End GraphPartition.

(** ** The Exact Solver without the balance constraint *)

Section ExactSolver.

Lemma Forall_forallb {A : Type} (P : A -> Prop) (f : A -> bool)
  (l : list A) :
  (forall x, f x = true -> P x) -> forallb f l = true -> Forall P l.
Proof.
  intros Hf Hall.
  apply Forall_forall. intros x Hx.
  apply Hf.
  now apply (proj1 (forallb_forall f l) Hall).
Qed.

(** Without the constraint the solver returns the least objective value
    over all assignments of size [n], and some assignment has it. *)
Lemma exact_solver_unconstrained (objective : list Z -> Z) (n : nat) :
  exists m,
    exact_solver false objective n = Finite m
    /\ (exists a, assignment n a /\ objective a = m)
    /\ (forall a, assignment n a -> m <= objective a).
Proof.
  unfold exact_solver.
  pose proof (minimum_spec (map objective (all_bits n))) as Hspec.
  destruct (minimum (map objective (all_bits n))) as [m|].
  - destruct Hspec as [Hin Hall].
    exists m. split; [reflexivity|]. split.
    + apply in_map_iff in Hin. destruct Hin as (a & Ha & Hin).
      exists a. split; [|exact Ha].
      pose proof (all_bits_assignment n) as H.
      rewrite Forall_forall in H. now apply H.
    + intros a Ha.
      rewrite Forall_forall in Hall.
      apply Hall, in_map, all_bits_complete, Ha.
  - apply map_eq_nil in Hspec.
    pose proof (all_bits_length n) as Hlen.
    rewrite Hspec in Hlen. cbn [List.length] in Hlen.
    pose proof (Nat.pow_nonzero 2 n). lia.
Qed.

(** The assignment tracked has the value tracked. *)
Lemma keep_first_track (objective : list Z -> Z)
  (cands : list (list Z)) (best : option (list Z)) :
  match fold_left (keep_first objective) cands best with
  | Some a => Finite (objective a)
  | None => Inf
  end
  = fold_left track (map objective cands)
      match best with
      | Some b => Finite (objective b)
      | None => Inf
      end.
Proof.
  revert best.
  induction cands as [|c cands IH]; intros best; cbn [fold_left map].
  - reflexivity.
  - rewrite IH. f_equal.
    unfold keep_first, track, value_lt.
    destruct best as [b|]; [|reflexivity].
    destruct (objective c <? objective b); reflexivity.
Qed.

Lemma exact_solver_assignment_value (balance : bool)
  (objective : list Z -> Z) (n : nat) :
  exact_solver balance objective n
  = match exact_solver_assignment balance objective n with
    | Some a => Finite (objective a)
    | None => Inf
    end.
Proof.
  unfold exact_solver, exact_solver_assignment. cbv zeta.
  now rewrite keep_first_track, track_fold_Inf.
Qed.

(** C6: minimising the number-partition objective over all [2^8]
    assignments of [1,3,4,7,10,13,15,16], with no balance constraint,
    yields the partition [7 + 13 + 15] against [1 + 3 + 4 + 10 + 16],
    whose subset sums differ by 1; the total, 69, is odd, no assignment
    splits it evenly, and 1 is the least difference over the 256
    assignments.  The value returned is its square. *)
Theorem exact_solver_sample_number_list :
  exact_solver_assignment false
    (fun a => partition.partition_value a sample_number_list) 8
  = Some [0; 0; 0; 1; 0; 1; 1; 0]
  /\ exact_solver false
       (fun a => partition.partition_value a sample_number_list) 8
     = Finite 1
  /\ subset_sum 0 [0; 0; 0; 1; 0; 1; 1; 0] sample_number_list = 34
  /\ subset_sum 1 [0; 0; 0; 1; 0; 1; 1; 0] sample_number_list = 35
  /\ List.length (all_bits 8) = 256%nat
  /\ Forall
       (fun a =>
          1 <= Z.abs (subset_sum 0 a sample_number_list
                      - subset_sum 1 a sample_number_list))
       (all_bits 8)
  /\ Forall (fun a => 1 <= partition.partition_value a sample_number_list)
       (all_bits 8).
Proof.
  split; [vm_compute; reflexivity|].
  split; [vm_compute; reflexivity|].
  split; [reflexivity|].
  split; [reflexivity|].
  split; [reflexivity|].
  split.
  - apply (Forall_forallb _
             (fun a =>
                1 <=? Z.abs (subset_sum 0 a sample_number_list
                             - subset_sum 1 a sample_number_list))).
    + intros a Ha. now apply Z.leb_le.
    + vm_compute. reflexivity.
  - apply (Forall_forallb _
             (fun a => 1 <=? partition.partition_value a sample_number_list)).
    + intros a Ha. now apply Z.leb_le.
    + vm_compute. reflexivity.
Qed.

End ExactSolver.

(** ** The optional solver *)

Section OptionalSolver.

Import Cells.

Lemma print_all_eq (lines : list string) :
  print_all lines = (lines, Returned tt).
Proof.
  induction lines as [|l lines IH]; [reflexivity|].
  cbn [print_all]. rewrite IH. reflexivity.
Qed.

(** An exception of class [Exception] raised by the import or by the
    solver ends the cell normally, with its message printed. *)
Lemma cplex_cell_unavailable (ex : exception)
  (import_ClassicalCPLEX : outcome unit)
  (run_ClassicalCPLEX : outcome (list string)) :
  is_Exception ex = true ->
  import_ClassicalCPLEX = Raised ex
  \/ (import_ClassicalCPLEX = Returned tt /\ run_ClassicalCPLEX = Raised ex) ->
  cplex_cell import_ClassicalCPLEX run_ClassicalCPLEX
  = ([str ex], Returned tt).
Proof.
  intros Hex [->|[-> ->]]; unfold cplex_cell; cbn; now rewrite Hex.
Qed.


(** What [except Exception] does not catch leaves the cell. *)
Lemma cplex_cell_interrupted (run_ClassicalCPLEX : outcome (list string)) :
  cplex_cell (Raised KeyboardInterrupt) run_ClassicalCPLEX
  = ([], Raised KeyboardInterrupt).
Proof.
  reflexivity.
Qed.

(** C7: when ClassicalCPLEX is not available, its import or its call
    raising an exception [ex] of class [Exception], the cell catches it,
    prints [str(ex)] and ends normally; the run goes on, and the VQE cell
    after it prints its results as the eigensolver cell before it did. *)
Theorem missing_cplex_is_skipped (ex : exception)
  (import_ClassicalCPLEX : outcome unit)
  (run_ClassicalCPLEX : outcome (list string))
  (eigensolver_lines vqe_lines : list string) :
  is_Exception ex = true ->
  import_ClassicalCPLEX = Raised ex
  \/ (import_ClassicalCPLEX = Returned tt /\ run_ClassicalCPLEX = Raised ex) ->
  cplex_cell import_ClassicalCPLEX run_ClassicalCPLEX
  = ([str ex], Returned tt)
  /\ solver_cells import_ClassicalCPLEX run_ClassicalCPLEX
       eigensolver_lines vqe_lines
     = (eigensolver_lines ++ [str ex] ++ vqe_lines, Returned tt).
Proof.
  intros Hex Hmissing.
  pose proof (cplex_cell_unavailable ex _ _ Hex Hmissing) as Hcell.
  split; [exact Hcell|].
  unfold solver_cells. cbn [run_all].
  rewrite Hcell, !print_all_eq.
  cbn. now rewrite app_nil_r.
Qed.

Lemma missing_cplex_is_skipped_witness :
  is_Exception (ImportError "No module named cplex") = true
  /\ solver_cells (Raised (ImportError "No module named cplex"))
       (Returned []) ["energy: -694.0"%string] ["energy: -693.9"%string]
     = (["energy: -694.0"; "No module named cplex"; "energy: -693.9"]%string,
        Returned tt).
Proof.
  split; [reflexivity|].
  apply (missing_cplex_is_skipped (ImportError "No module named cplex")
           (Raised (ImportError "No module named cplex")) (Returned [])
           ["energy: -694.0"%string] ["energy: -693.9"%string]).
  - reflexivity.
  - left. reflexivity.
Defined.

End OptionalSolver.

(** ** Further properties of the brute-force loop *)

Section Oracle.

Lemma filter_none {A : Type} (f : A -> bool) (l : list A) :
  (forall x, f x = false) -> filter f l = [].
Proof.
  intros Hf.
  induction l as [|x l IH]; cbn [filter]; [reflexivity|].
  now rewrite Hf.
Qed.



(** X2: with an odd number of vertices no candidate passes the balance
    test: the objective is never called and [brute_force] returns the
    [np.inf] it started from, whatever the graph. *)
Theorem brute_force_odd_size
  (objective : list Z -> Z) (n : nat) (w : list (list Z)) :
  Nat.odd n = true ->
  evaluated (brute_force_loop objective n) = []
  /\ minimal_v (brute_force_loop objective n) = Inf
  /\ brute_force n w = Inf.
Proof.
  intros Hodd.
  assert (Hnone : forall l, filter (balancedb n) l = []).
  { intros l. apply filter_none. intros a.
    unfold balancedb. apply Nat.eqb_neq. intros E.
    rewrite <- E, Nat.odd_mul in Hodd. discriminate. }
  split; [|split].
  - now rewrite brute_force_loop_evaluated.
  - now rewrite brute_force_loop_minimal_v, Hnone.
  - unfold brute_force.
    now rewrite brute_force_loop_minimal_v, Hnone.
Qed.

Lemma brute_force_odd_size_witness :
  Nat.odd 3 = true /\ brute_force 3 sample_w = Inf.
Proof.
  split; [reflexivity|].
  apply (brute_force_odd_size (fun x => binary_value x) 3 sample_w).
  reflexivity.
Defined.

Lemma objective_value_single_zero (w : list (list Z)) :
  graph_partition.objective_value [0] w = 0.
Proof.
  unfold graph_partition.objective_value. cbv zeta.
  destruct w as [|row w']; [reflexivity|].
  assert (Htail : forall m : list (list Z),
             Numpy.zip_with (Numpy.zip_with Z.mul) m [] = [])
    by (intros [|? ?]; reflexivity).
  unfold Numpy.sum2, Numpy.multiply, Numpy.where_nonzero, Numpy.outer.
  cbn [map Numpy.zip_with]. rewrite Htail.
  destruct row as [|v r]; [reflexivity|].
  cbn [map Numpy.zip_with]. 
  replace (Numpy.zip_with Z.mul
             (map (fun v0 : Z => if v0 =? 0 then 0 else 1) r) [])
    with (@nil Z) by (destruct r; reflexivity).
  destruct (v =? 0); reflexivity.
Qed.

(** X3: with no vertex at all the loop runs once, on the number 0, which
    [np.binary_repr(0, 0)] prints as the one-digit string "0"; it counts
    as balanced, the objective is called on [[0]], and [brute_force]
    returns 0 for every [w]. *)
Theorem brute_force_no_vertex
  (objective : list Z -> Z) (w : list (list Z)) :
  evaluated (brute_force_loop objective 0) = [[0]]
  /\ minimal_v (brute_force_loop objective 0) = Finite (objective [0])
  /\ brute_force 0 w = Finite 0.
Proof.
  split; [reflexivity|].
  split; [reflexivity|].
  unfold brute_force.
  change (minimal_v
            (brute_force_loop
               (fun cur => graph_partition.objective_value cur w) 0))
    with (Finite (graph_partition.objective_value [0] w)).
  now rewrite objective_value_single_zero.
Qed.

End Oracle.

(** ** The calls the loop makes *)

Section Calls.

Lemma filter_map_length {A B : Type} (f : B -> bool) (g : A -> B)
  (l : list A) :
  List.length (filter f (map g l))
  = List.length (filter (fun x => f (g x)) l).
Proof.
  induction l as [|x l IH]; cbn [map filter]; [reflexivity|].
  destruct (f (g x)); cbn [List.length]; now rewrite IH.
Qed.

Lemma ones_cons_0 (a : list Z) : ones (0 :: a) = ones a.
Proof.
  unfold ones. cbn [count_occ].
  destruct (Z.eq_dec 0 1); [discriminate | reflexivity].
Qed.

Lemma ones_cons_1 (a : list Z) : ones (1 :: a) = S (ones a).
Proof.
  unfold ones. cbn [count_occ].
  destruct (Z.eq_dec 1 1); [reflexivity | contradiction].
Qed.

(** There are [choose n k] binary strings of length [n] with [k] ones. *)
Lemma strings_with_k_ones (n k : nat) :
  List.length (filter (fun a => Nat.eqb (ones a) k) (all_bits n))
  = choose n k.
Proof.
  revert k.
  induction n as [|n IH]; intros k.
  - destruct k; reflexivity.
  - cbn [all_bits].
    rewrite filter_app, length_app, !filter_map_length.
    rewrite (filter_ext _ (fun a => Nat.eqb (ones a) k))
      by (intros a; now rewrite ones_cons_0).
    rewrite IH.
    destruct k as [|k].
    + rewrite filter_none by (intros a; now rewrite ones_cons_1).
      destruct n; reflexivity.
    + rewrite (filter_ext _ (fun a => Nat.eqb (ones a) k))
        by (intros a; now rewrite ones_cons_1).
      rewrite IH. cbn [choose]. lia.
Qed.

(** X4: the number of calls of the objective.  For an even number [n] of
    vertices the loop calls the objective [choose n (n/2)] times, once
    per balanced string among its [2^n] candidates; for an odd number it
    never calls it. *)
Theorem brute_force_call_count (objective : list Z -> Z) (n : nat) :
  List.length (evaluated (brute_force_loop objective n))
  = (if Nat.even n then choose n (n / 2) else 0%nat)
  /\ List.length (candidates n) = (2 ^ n)%nat.
Proof.
  split; [|apply candidates_length].
  rewrite brute_force_loop_evaluated.
  destruct n as [|n]; [reflexivity|].
  rewrite candidates_all_bits by lia.
  destruct (Nat.even (S n)) eqn:E.
  - apply Nat.even_spec in E. destruct E as [m Hm].
    rewrite Hm.
    replace (2 * m / 2)%nat with m
      by (rewrite Nat.mul_comm, Nat.div_mul; lia).
    rewrite <- strings_with_k_ones.
    f_equal. apply filter_ext. intros a.
    unfold balancedb.
    destruct (Nat.eqb_spec (2 * ones a) (2 * m)),
      (Nat.eqb_spec (ones a) m); try reflexivity; lia.
  - rewrite filter_none; [reflexivity|].
    intros a. unfold balancedb. apply Nat.eqb_neq. intros Ea.
    rewrite <- Ea, Nat.even_mul in E. discriminate.
Qed.

Lemma seq_values_sorted (start len : nat) :
  StronglySorted Z.lt (map Z.of_nat (seq start len)).
Proof.
  revert start.
  induction len as [|len IH]; intros start; cbn [seq map]; constructor.
  - apply IH.
  - apply Forall_map, Forall_forall.
    intros k Hk. apply in_seq in Hk. lia.
Qed.

Lemma sorted_filter {A : Type} (g : A -> Z) (f : A -> bool) (l : list A) :
  StronglySorted Z.lt (map g l) ->
  StronglySorted Z.lt (map g (filter f l)).
Proof.
  induction l as [|x l IH]; cbn [map filter]; intros H; [constructor|].
  inversion H as [|? ? Hs Hall]; subst.
  destruct (f x); [|now apply IH].
  cbn [map]. constructor; [now apply IH|].
  rewrite Forall_forall in Hall |- *.
  intros z Hz. apply Hall.
  apply in_map_iff in Hz. destruct Hz as (y & <- & Hy).
  apply in_map. now apply filter_In in Hy.
Qed.

Lemma sorted_NoDup {A : Type} (g : A -> Z) (l : list A) :
  StronglySorted Z.lt (map g l) -> NoDup l.
Proof.
  induction l as [|x l IH]; cbn [map]; intros H; constructor;
    inversion H as [|? ? Hs Hall]; subst.
  - intros Hin.
    rewrite Forall_forall in Hall.
    pose proof (Hall (g x) (in_map g l x Hin)). lia.
  - now apply IH.
Qed.

(** X5: the objective is called in increasing order of the integer the
    assignment denotes, and never twice on the same assignment. *)
Theorem brute_force_calls_increasing (objective : list Z -> Z) (n : nat) :
  StronglySorted Z.lt
    (map binary_value (evaluated (brute_force_loop objective n)))
  /\ NoDup (evaluated (brute_force_loop objective n)).
Proof.
  assert (H : StronglySorted Z.lt
                (map binary_value
                   (evaluated (brute_force_loop objective n)))).
  { rewrite brute_force_loop_evaluated.
    apply sorted_filter.
    rewrite candidates_values.
    apply seq_values_sorted. }
  split; [exact H|].
  exact (sorted_NoDup binary_value _ H).
Qed.

Lemma value_leq_refl (a : value) : value_leq a a.
Proof.
  destruct a; cbn; lia.
Qed.

Lemma value_leq_trans (a b c : value) :
  value_leq a b -> value_leq b c -> value_leq a c.
Proof.
  destruct a, b, c; cbn; try lia; try tauto.
Qed.

Lemma track_fold_leq (vs : list Z) (m0 : value) :
  value_leq (fold_left track vs m0) m0.
Proof.
  revert m0.
  induction vs as [|v vs IH]; intros m0; cbn [fold_left].
  - apply value_leq_refl.
  - eapply value_leq_trans; [apply IH|].
    unfold track, value_lt.
    destruct m0 as [m|]; [|exact I].
    destruct (Z.ltb_spec v m); cbn; lia.
Qed.

Lemma firstn_split_le {A : Type} (k k' : nat) (l : list A) :
  (k <= k')%nat -> firstn k' l = firstn k l ++ firstn (k' - k) (skipn k l).
Proof.
  revert k' l.
  induction k as [|k IH]; intros k' l Hk.
  - cbn [firstn skipn app]. now rewrite Nat.sub_0_r.
  - destruct k' as [|k']; [lia|].
    destruct l as [|x l].
    + cbn [skipn]. now rewrite !firstn_nil.
    + cbn [firstn skipn app Nat.sub]. f_equal.
      apply IH. lia.
Qed.

(** X6: the loop invariant.  After any number [k] of iterations
    [minimal_v] is the minimum of the objective over the assignments
    evaluated so far ([np.inf] while there is none), and it never goes up
    from one iteration to a later one. *)
Theorem brute_force_loop_invariant
  (objective : list Z -> Z) (n k k' : nat) :
  (k <= k')%nat ->
  minimal_v (state_after objective n k)
  = minimum (map objective (evaluated (state_after objective n k)))
  /\ value_leq (minimal_v (state_after objective n k'))
       (minimal_v (state_after objective n k))
  /\ state_after objective n (2 ^ n) = brute_force_loop objective n.
Proof.
  intros Hk.
  unfold state_after.
  split; [|split].
  - rewrite loop_minimal_v, loop_evaluated.
    cbn [initial_state minimal_v evaluated app].
    apply track_fold_Inf.
  - rewrite (firstn_split_le k k' _ Hk), fold_left_app.
    rewrite (loop_minimal_v objective n (firstn (k' - k) _)).
    apply track_fold_leq.
  - unfold brute_force_loop. cbv zeta.
    rewrite firstn_all2; [reflexivity|].
    unfold Numpy.range. rewrite length_map, length_seq. lia.
Qed.

Lemma brute_force_loop_invariant_witness :
  (6 <= 7)%nat
  /\ value_leq (minimal_v (state_after binary_value 4 7))
       (minimal_v (state_after binary_value 4 6)).
Proof.
  split; [lia|].
  apply (brute_force_loop_invariant binary_value 4 6 7).
  lia.
Defined.

End Calls.

(** ** The value [brute_force] returns *)

Section ReturnedValue.

Lemma minimum_attained {A : Type} (obj : A -> Z) (l : list A) :
  l <> [] ->
  exists b,
    In b l /\ minimum (map obj l) = Finite (obj b)
    /\ Forall (fun c => obj b <= obj c) l.
Proof.
  intros Hl.
  pose proof (minimum_spec (map obj l)) as Hspec.
  destruct (minimum (map obj l)) as [m|].
  - destruct Hspec as [Hin Hall].
    apply in_map_iff in Hin. destruct Hin as (b & Hb & Hin).
    exists b. subst m. split; [exact Hin|]. split; [reflexivity|].
    rewrite Forall_forall in Hall |- *.
    intros c Hc. apply Hall. now apply in_map.
  - apply map_eq_nil in Hspec. contradiction.
Qed.

(** For an even size of at least two the loop has something to
    evaluate. *)
Lemma balanced_candidates_nonempty (n : nat) :
  (2 <= n)%nat -> Nat.even n = true ->
  filter (balancedb n) (candidates n) <> [].
Proof.
  intros Hn Heven.
  apply Nat.even_spec in Heven. destruct Heven as [k Hk].
  destruct (half_half_balanced k) as [Hassign Hbal].
  rewrite <- Hk in Hassign, Hbal.
  intros E.
  assert (Hin : In (repeat 0 k ++ repeat 1 k)
                  (filter (balancedb n) (candidates n))).
  { apply filter_In. split.
    - rewrite candidates_all_bits by lia. now apply all_bits_complete.
    - now apply Nat.eqb_eq. }
  rewrite E in Hin. contradiction.
Qed.

Lemma complement_bits (a : list Z) :
  Forall is_bit a -> Forall is_bit (complement a).
Proof.
  intros H. unfold complement. apply Forall_map.
  eapply Forall_impl; [|exact H].
  intros b [->| ->]; [now right | now left].
Qed.

Lemma ones_complement (a : list Z) :
  Forall is_bit a -> (ones (complement a) + ones a = List.length a)%nat.
Proof.
  induction 1 as [|b a Hb _ IH]; [reflexivity|].
  cbn [complement map List.length]. fold (complement a).
  destruct Hb; subst b.
  - change (1 - 0) with 1. rewrite ones_cons_1, ones_cons_0. lia.
  - change (1 - 1) with 0. rewrite ones_cons_1, ones_cons_0. lia.
Qed.

Lemma complement_balanced (n : nat) (a : list Z) :
  assignment n a -> balanced n a ->
  assignment n (complement a) /\ balanced n (complement a).
Proof.
  intros [Hlen Hbits] Hbal.
  pose proof (ones_complement a Hbits) as Hones.
  unfold balanced in *.
  repeat split.
  - now rewrite complement_length.
  - now apply complement_bits.
  - lia.
Qed.

Lemma complement_differs (a : list Z) : a <> [] -> complement a <> a.
Proof.
  destruct a as [|b a]; [congruence|].
  intros _ E. unfold complement in E. cbn [map] in E.
  apply (f_equal (fun l => nth 0 l 0)) in E. cbn [nth] in E. lia.
Qed.

(** X7: on a symmetric graph the minimum is never reached by one
    assignment only.  For an even size of at least two, some assignment
    the loop evaluates has the value returned, and its complement, a
    different assignment, is evaluated too and has the same value. *)
Theorem brute_force_minimiser_pair (n : nat) (w : list (list Z)) :
  square n w -> symmetric n w -> (2 <= n)%nat -> Nat.even n = true ->
  exists a,
    In a
      (evaluated
         (brute_force_loop (fun x => graph_partition.objective_value x w) n))
    /\ In (complement a)
         (evaluated
            (brute_force_loop
               (fun x => graph_partition.objective_value x w) n))
    /\ complement a <> a
    /\ brute_force n w = Finite (graph_partition.objective_value a w)
    /\ brute_force n w
       = Finite (graph_partition.objective_value (complement a) w).
Proof.
  intros Hsq Hsym Hn Heven.
  unfold brute_force.
  rewrite brute_force_loop_evaluated, brute_force_loop_minimal_v.
  destruct (minimum_attained
              (fun x => graph_partition.objective_value x w)
              (filter (balancedb n) (candidates n))
              (balanced_candidates_nonempty n Hn Heven))
    as (a & Hin & Hmin & _).
  exists a.
  pose proof Hin as Hin'.
  apply filter_In in Hin'. destruct Hin' as [Hcand Hbal].
  apply Nat.eqb_eq in Hbal.
  assert (Ha : assignment n a).
  { pose proof (candidates_assignment n ltac:(lia)) as Hall.
    rewrite Forall_forall in Hall. now apply Hall. }
  destruct (complement_balanced n a Ha Hbal) as [Hca Hcb].
  split; [exact Hin|]. split; [|split; [|split]].
  - apply filter_In. split.
    + rewrite candidates_all_bits by lia. now apply all_bits_complete.
    + now apply Nat.eqb_eq.
  - apply complement_differs.
    destruct Ha as [Hlen _]. destruct a; [cbn in Hlen; lia | discriminate].
  - exact Hmin.
  - rewrite Hmin. f_equal.
    destruct Ha as [Hlen _].
    now apply (objective_value_complement n).
Qed.

Lemma brute_force_minimiser_pair_witness :
  (square 4 sample_w /\ symmetric 4 sample_w
   /\ (2 <= 4)%nat /\ Nat.even 4 = true)
  /\ exists a,
       complement a <> a
       /\ brute_force 4 sample_w
          = Finite (graph_partition.objective_value a sample_w)
       /\ brute_force 4 sample_w
          = Finite (graph_partition.objective_value (complement a) sample_w).
Proof.
  split.
  - split; [apply sample_w_square|].
    split; [apply sample_w_symmetric|].
    split; [lia | reflexivity].
  - destruct (brute_force_minimiser_pair 4 sample_w sample_w_square
                sample_w_symmetric ltac:(lia) eq_refl)
      as (a & _ & _ & Hne & H1 & H2).
    exists a. split; [exact Hne|]. split; [exact H1 | exact H2].
Defined.

Lemma brute_force_ext (f g : list Z -> Z) (n : nat) :
  (forall x, f x = g x) ->
  minimal_v (brute_force_loop f n) = minimal_v (brute_force_loop g n).
Proof.
  intros Hfg.
  rewrite !brute_force_loop_minimal_v.
  f_equal. apply map_ext. exact Hfg.
Qed.

Lemma where_nonzero_idempotent (w : list (list Z)) :
  Numpy.where_nonzero (Numpy.where_nonzero w) = Numpy.where_nonzero w.
Proof.
  unfold Numpy.where_nonzero.
  rewrite map_map.
  apply map_ext. intros row.
  rewrite map_map.
  apply map_ext. intros v.
  destruct (v =? 0); reflexivity.
Qed.

(** X8: the brute-force value depends on the weights only through which
    of them are zero.  Two matrices with the same zero entries give the
    same value, and so replacing every nonzero weight by 1 changes
    nothing: the cell counts crossing edges, it does not weigh them. *)
Theorem brute_force_ignores_weights (n : nat) (w w' : list (list Z)) :
  Numpy.where_nonzero w = Numpy.where_nonzero w' ->
  brute_force n w = brute_force n w'
  /\ brute_force n w = brute_force n (Numpy.where_nonzero w).
Proof.
  intros Hw.
  assert (H : forall v v',
             Numpy.where_nonzero v = Numpy.where_nonzero v' ->
             brute_force n v = brute_force n v').
  { intros v v' Hv.
    unfold brute_force.
    apply brute_force_ext. intros x.
    unfold graph_partition.objective_value. cbv zeta.
    now rewrite Hv. }
  split; [now apply H|].
  apply H. now rewrite where_nonzero_idempotent.
Qed.

Lemma brute_force_ignores_weights_witness :
  Numpy.where_nonzero sample_w
  = Numpy.where_nonzero
      [[0; 1; 1; 1]; [1; 0; 1; 1]; [1; 1; 0; 0]; [1; 1; 0; 0]]
  /\ brute_force 4 sample_w
     = brute_force 4
         [[0; 1; 1; 1]; [1; 0; 1; 1]; [1; 1; 0; 0]; [1; 1; 0; 0]].
Proof.
  split; [reflexivity|].
  apply (brute_force_ignores_weights 4 sample_w
           [[0; 1; 1; 1]; [1; 0; 1; 1]; [1; 1; 0; 0]; [1; 1; 0; 0]]).
  reflexivity.
Defined.

End ReturnedValue.

(** ** Bounds on the objective *)

Section Bounds.

Lemma isum_le (n : nat) (f g : nat -> Z) :
  (forall i, (i < n)%nat -> f i <= g i) -> isum n f <= isum n g.
Proof.
  induction n as [|n IH]; intros H; cbn [isum]; [lia|].
  pose proof (H n ltac:(lia)).
  assert (isum n f <= isum n g) by (apply IH; intros; apply H; lia).
  lia.
Qed.

Lemma isum_nonneg (n : nat) (f : nat -> Z) :
  (forall i, (i < n)%nat -> 0 <= f i) -> 0 <= isum n f.
Proof.
  intros H.
  rewrite <- (isum_zero n).
  now apply isum_le.
Qed.

Lemma isum_scale (n : nat) (c : Z) (f : nat -> Z) :
  isum n (fun i => c * f i) = c * isum n f.
Proof.
  induction n as [|n IH]; cbn [isum]; lia.
Qed.

Lemma isum_sub (n : nat) (f g : nat -> Z) :
  isum n (fun i => f i - g i) = isum n f - isum n g.
Proof.
  induction n as [|n IH]; cbn [isum]; lia.
Qed.

Lemma isum_one (n : nat) : isum n (fun _ => 1) = Z.of_nat n.
Proof.
  induction n as [|n IH]; cbn [isum]; lia.
Qed.

Lemma sum_ones (a : list Z) :
  Forall is_bit a -> Numpy.sum a = Z.of_nat (ones a).
Proof.
  induction 1 as [|b a Hb _ IH]; [reflexivity|].
  unfold Numpy.sum in *. cbn [fold_right]. rewrite IH.
  destruct Hb; subst b; [rewrite ones_cons_0 | rewrite ones_cons_1]; lia.
Qed.

(** The objective counts some of the pairs made of a vertex on side 1 and
    a vertex on side 0. *)
Lemma objective_value_bounds (n : nat) (a : list Z) (w : list (list Z)) :
  square n w -> assignment n a ->
  0 <= graph_partition.objective_value a w
       <= Z.of_nat (ones a) * (Z.of_nat n - Z.of_nat (ones a)).
Proof.
  intros Hsq Ha.
  pose proof Ha as [Hlen Hbits].
  rewrite (objective_value_index n a w Hsq Hlen).
  assert (Hterm : forall i j, (i < n)%nat -> (j < n)%nat ->
            0 <= (if entry w i j =? 0 then 0 else 1)
                 * (at_ a i * (1 - at_ a j))
              <= at_ a i * (1 - at_ a j)).
  { intros i j Hi Hj.
    destruct (at_bit n a i Ha Hi) as [Ei|Ei],
      (at_bit n a j Ha Hj) as [Ej|Ej]; rewrite Ei, Ej;
      destruct (entry w i j =? 0); lia. }
  split.
  - apply isum_nonneg. intros i Hi.
    apply isum_nonneg. intros j Hj.
    pose proof (Hterm i j Hi Hj). lia.
  - transitivity
      (isum n (fun i => isum n (fun j => at_ a i * (1 - at_ a j)))).
    + apply isum_le. intros i Hi.
      apply isum_le. intros j Hj.
      pose proof (Hterm i j Hi Hj). cbn beta. lia.
    + rewrite (isum_ext n _
                 (fun i => (Z.of_nat n - Z.of_nat (ones a)) * at_ a i)).
      * rewrite isum_scale.
        rewrite <- Hlen at 2. rewrite <- sum_isum, sum_ones by assumption.
        lia.
      * intros i Hi.
        rewrite isum_scale, isum_sub, isum_one.
        rewrite <- Hlen at 2. rewrite <- sum_isum, sum_ones by assumption.
        lia.
Qed.

(** X9: for an even number [n >= 2] of vertices and an [n] by [n] matrix
    the value [brute_force] returns lies between 0 and [(n/2)^2], the
    number of pairs of vertices taken from the two halves. *)
Theorem brute_force_value_bounds (n : nat) (w : list (list Z)) :
  square n w -> (2 <= n)%nat -> Nat.even n = true ->
  exists m,
    brute_force n w = Finite m
    /\ 0 <= m
    /\ 4 * m <= Z.of_nat n * Z.of_nat n.
Proof.
  intros Hsq Hn Heven.
  unfold brute_force.
  rewrite brute_force_loop_minimal_v.
  destruct (minimum_attained
              (fun x => graph_partition.objective_value x w)
              (filter (balancedb n) (candidates n))
              (balanced_candidates_nonempty n Hn Heven))
    as (a & Hin & Hmin & _).
  exists (graph_partition.objective_value a w).
  split; [exact Hmin|].
  apply filter_In in Hin. destruct Hin as [Hcand Hbal].
  apply Nat.eqb_eq in Hbal.
  assert (Ha : assignment n a).
  { pose proof (candidates_assignment n ltac:(lia)) as Hall.
    rewrite Forall_forall in Hall. now apply Hall. }
  pose proof (objective_value_bounds n a w Hsq Ha) as [Hlo Hhi].
  split; [exact Hlo|].
  nia.
Qed.

Lemma brute_force_value_bounds_witness :
  (square 4 sample_w /\ (2 <= 4)%nat /\ Nat.even 4 = true)
  /\ exists m,
       brute_force 4 sample_w = Finite m /\ 0 <= m /\ 4 * m <= 4 * 4.
Proof.
  split.
  - split; [apply sample_w_square | split; [lia | reflexivity]].
  - apply (brute_force_value_bounds 4 sample_w sample_w_square);
      [lia | reflexivity].
Defined.

End Bounds.

(** ** The cells after a failed solver *)

Section CellsRun.

Import Cells.


End CellsRun.

(** ** The solution vector *)

Section SolutionVector.

Lemma insert_sorted_comm (a b : Z) (l : list Z) :
  insert_sorted a (insert_sorted b l) = insert_sorted b (insert_sorted a l).
Proof.
  induction l as [|x l IH]; cbn [insert_sorted].
  - destruct (Z.leb_spec a b), (Z.leb_spec b a);
      try reflexivity; try lia.
    assert (a = b) by lia. now subst.
  - destruct (b <=? x) eqn:Ebx, (a <=? x) eqn:Eax,
      (a <=? b) eqn:Eab, (b <=? a) eqn:Eba;
      cbn [insert_sorted]; rewrite ?Ebx, ?Eax, ?Eab, ?Eba;
      repeat match goal with
        | H : (_ <=? _) = true |- _ => apply Z.leb_le in H
        | H : (_ <=? _) = false |- _ => apply Z.leb_gt in H
        end;
      try (exfalso; lia);
      try reflexivity;
      try (assert (a = b) by lia; subst; reflexivity);
      now rewrite IH.
Qed.

(** [sorted] returns the same list for every arrangement of its
    argument. *)
Lemma sorted_Permutation (l l' : list Z) :
  Permutation l l' -> sorted l = sorted l'.
Proof.
  unfold sorted.
  induction 1 as [|x l l' _ IH|x y l|l l' l'' _ IH1 _ IH2];
    cbn [fold_right].
  - reflexivity.
  - now rewrite IH.
  - apply insert_sorted_comm.
  - now rewrite IH1.
Qed.



Lemma sorted_seq (start len : nat) :
  sorted (map Z.of_nat (seq start len)) = map Z.of_nat (seq start len).
Proof.
  unfold sorted.
  revert start.
  induction len as [|len IH]; intros start; [reflexivity|].
  cbn [seq map fold_right]. rewrite IH.
  destruct len as [|len]; [reflexivity|].
  cbn [seq map insert_sorted].
  destruct (Z.leb_spec (Z.of_nat start) (Z.of_nat (S start)));
    [reflexivity | lia].
Qed.

Lemma getitem_keys (d : dict) (k : Z) :
  In k (keys d) -> exists v, getitem d k = Some v.
Proof.
  unfold keys.
  induction d as [|[k' v'] d IH]; cbn [map getitem fst]; [contradiction|].
  intros [->|Hin].
  - rewrite Z.eqb_refl. now exists v'.
  - destruct (k' =? k); [now exists v' | now apply IH].
Qed.

Lemma getitem_Permutation (d d' : dict) (k : Z) :
  NoDup (keys d) -> Permutation d d' -> getitem d k = getitem d' k.
Proof.
  intros Hnd Hperm. revert Hnd.
  induction Hperm as [|[k1 v1] l l' Hp IH|[k1 v1] [k2 v2] l
                     |l l' l'' Hp1 IH1 Hp2 IH2];
    intros Hnd; cbn [getitem].
  - reflexivity.
  - inversion Hnd as [|? ? _ Hnd']; subst.
    now rewrite IH.
  - unfold keys in Hnd. cbn [map fst] in Hnd.
    inversion Hnd as [|? ? Hn1 _]; subst.
    destruct (Z.eqb_spec k1 k), (Z.eqb_spec k2 k); try reflexivity.
    subst. exfalso. apply Hn1. now left.
  - rewrite IH1 by assumption.
    apply IH2.
    eapply Permutation_NoDup; [|exact Hnd].
    unfold keys. now apply Permutation_map.
Qed.

Lemma comprehension_ext (f g : Z -> option Z) (l : list Z) :
  (forall i, f i = g i) -> comprehension f l = comprehension g l.
Proof.
  intros Hfg.
  induction l as [|i l IH]; cbn [comprehension]; [reflexivity|].
  now rewrite Hfg, IH.
Qed.

Lemma comprehension_defined (f : Z -> option Z) (l : list Z) :
  (forall i, In i l -> exists v, f i = Some v) ->
  exists x,
    comprehension f l = Some x
    /\ List.length x = List.length l
    /\ forall i,
         nth_error x i
         = match nth_error l i with
           | Some k => f k
           | None => None
           end.
Proof.
  induction l as [|k l IH]; intros H; cbn [comprehension].
  - exists []. split; [reflexivity|]. split; [reflexivity|].
    intros [|i]; reflexivity.
  - destruct (H k (or_introl eq_refl)) as [v Hv].
    destruct IH as (x & Hx & Hlen & Hnth);
      [intros i Hi; apply H; now right|].
    rewrite Hv, Hx.
    exists (v :: x). split; [reflexivity|].
    split; [cbn [List.length]; now rewrite Hlen|].
    intros [|i]; cbn [nth_error]; [now rewrite Hv | apply Hnth].
Qed.


(** X12: the solution vector does not depend on the order in which the
    solver filled the dictionary: two dictionaries with the same items
    give the same vector. *)
Theorem x_sol_array_order_independent (x_dict x_dict' : dict) :
  NoDup (keys x_dict) -> Permutation x_dict x_dict' ->
  x_sol_array x_dict = x_sol_array x_dict'.
Proof.
  intros Hnd Hperm.
  unfold x_sol_array.
  rewrite (sorted_Permutation (keys x_dict) (keys x_dict'))
    by (unfold keys; now apply Permutation_map).
  apply comprehension_ext. intros i.
  now apply getitem_Permutation.
Qed.

Lemma x_sol_array_order_independent_witness :
  (NoDup (keys [(2, 0); (0, 1); (1, 1)])
   /\ Permutation [(2, 0); (0, 1); (1, 1)] [(0, 1); (1, 1); (2, 0)])
  /\ x_sol_array [(2, 0); (0, 1); (1, 1)]
     = x_sol_array [(0, 1); (1, 1); (2, 0)].
Proof.
  assert (Hnd : NoDup (keys [(2, 0); (0, 1); (1, 1)])).
  { unfold keys. cbn [map fst].
    repeat constructor; cbn [In]; intros H;
      repeat (destruct H as [H|H]; [discriminate|]); exact H. }
  assert (Hp : Permutation [(2, 0); (0, 1); (1, 1)]
                 [(0, 1); (1, 1); (2, 0)]).
  { change [(0, 1); (1, 1); (2, 0)]
      with ([(0, 1); (1, 1)] ++ (2, 0) :: @nil (Z * Z)).
    apply Permutation_cons_app.
    rewrite app_nil_r. reflexivity. }
  split; [split; assumption|].
  apply (x_sol_array_order_independent _ _ Hnd Hp).
Defined.

(** X13: when the keys of the dictionary are the variable indices
    [0 .. n-1], in whatever order, entry [i] of the solution vector is
    [x_dict[i]]. *)
Theorem x_sol_array_indexed (x_dict : dict) (n : nat) :
  Permutation (keys x_dict) (map Z.of_nat (seq 0 n)) ->
  exists x,
    x_sol_array x_dict = Some x
    /\ List.length x = n
    /\ Forall
         (fun i => nth_error x i = getitem x_dict (Z.of_nat i)
                   /\ nth_error x i <> None)
         (seq 0 n).
Proof.
  intros Hkeys.
  assert (Hsorted : sorted (keys x_dict) = map Z.of_nat (seq 0 n)).
  { rewrite (sorted_Permutation _ _ Hkeys). apply sorted_seq. }
  unfold x_sol_array. rewrite Hsorted.
  destruct (comprehension_defined (getitem x_dict) (map Z.of_nat (seq 0 n)))
    as (x & Hx & Hlen & Hnth).
  { intros i Hi. apply getitem_keys.
    eapply Permutation_in; [apply Permutation_sym, Hkeys | exact Hi]. }
  exists x. split; [exact Hx|].
  rewrite length_map, length_seq in Hlen.
  split; [exact Hlen|].
  apply Forall_forall. intros i Hi. apply in_seq in Hi.
  assert (E : nth_error x i = getitem x_dict (Z.of_nat i)).
  { rewrite Hnth, nth_error_map, nth_error_seq.
    destruct (Nat.ltb_spec i n); [reflexivity | lia]. }
  split; [exact E|].
  apply nth_error_Some. lia.
Qed.

Lemma x_sol_array_indexed_witness :
  Permutation (keys [(2, 0); (0, 1); (1, 1)]) (map Z.of_nat (seq 0 3))
  /\ exists x,
       x_sol_array [(2, 0); (0, 1); (1, 1)] = Some x
       /\ List.length x = 3%nat.
Proof.
  assert (Hp : Permutation (keys [(2, 0); (0, 1); (1, 1)])
                 (map Z.of_nat (seq 0 3))).
  { change (Permutation (2 :: [0; 1]) ([0; 1] ++ 2 :: [])).
    apply Permutation_cons_app.
    rewrite app_nil_r. reflexivity. }
  split; [exact Hp|].
  destruct (x_sol_array_indexed [(2, 0); (0, 1); (1, 1)] 3 Hp)
    as (x & Hx & Hlen & _).
  exists x. split; [exact Hx | exact Hlen].
Defined.

End SolutionVector.
